(** * bfx_tools: transcript-to-reference coordinate translation

    A shallow embedding of [genetic_coordinates/cigar_translate.py]
    ([cigar_to_operators], [get_length], [make_index_map],
    [translate_coordinate]) together with the properties its
    specification states about them.

    Python integers are unbounded, so every integer is a [Z].  A CIGAR
    string is a [string]; the functions scan it as a [list ascii]. *)

From Stdlib Require Import ZArith List Ascii String Bool Lia Sorted.
From Stdlib Require Import Permutation DecimalString.
From Stdlib Require OrdersEx.
Import ListNotations.
Open Scope Z_scope.

(** ** A backtracking matcher for the fragment of [re] the module uses *)

Module Re.

Definition charclass := ascii -> bool.

(** [One cls] is a bracket expression [[...]], [Many1 cls] is the same
    expression under a greedy [+]. *)
Inductive atom : Type :=
| One (cls : charclass)
| Many1 (cls : charclass).

Definition pattern := list atom.

(** [[lo-hi]] *)
Definition in_range (lo hi : ascii) : charclass :=
  fun c => (nat_of_ascii lo <=? nat_of_ascii c)%nat
           && (nat_of_ascii c <=? nat_of_ascii hi)%nat.

(** [[abc...]], also Python's [c in ['a', 'b', ...]] on one-character
    strings. *)
Definition one_of (cs : list ascii) : charclass :=
  fun c => existsb (Ascii.eqb c) cs.

(** Match [p] as a prefix of [s]: the matched text and what follows it.
    A [+] first tries one more repetition and falls back to the rest of
    the pattern when that fails. *)
Fixpoint match_here (p : pattern) (s : list ascii) {struct s}
  : option (list ascii * list ascii) :=
  match p with
  | [] => Some ([], s)
  | One cls :: p' =>
      match s with
      | [] => None
      | c :: s' =>
          if cls c then
            match match_here p' s' with
            | Some (m, r) => Some (c :: m, r)
            | None => None
            end
          else None
      end
  | Many1 cls :: p' =>
      match s with
      | [] => None
      | c :: s' =>
          if cls c then
            match match_here (Many1 cls :: p') s' with
            | Some (m, r) => Some (c :: m, r)
            | None =>
                match match_here p' s' with
                | Some (m, r) => Some (c :: m, r)
                | None => None
                end
            end
          else None
      end
  end.

(** [re.findall]: the matches from left to right, each search resuming
    where the previous match ended, and one character further on when
    there is no match at the current position.  Every step consumes at
    least one character, so [length s] steps are enough
    (see [findall_fuel_enough]). *)
Fixpoint findall_fuel (fuel : nat) (p : pattern) (s : list ascii)
  : list (list ascii) :=
  match fuel with
  | O => []
  | S fuel' =>
      match s with
      | [] => []
      | _ :: s' =>
          match match_here p s with
          | Some (m, r) => m :: findall_fuel fuel' p r
          | None => findall_fuel fuel' p s'
          end
      end
  end.

Definition findall (p : pattern) (s : list ascii) : list (list ascii) :=
  findall_fuel (List.length s) p s.

End Re.

(** ** The parser *)

Definition is_digit : Re.charclass := Re.in_range "0" "9".

Definition operator_codes : list ascii :=
  ["M"; "I"; "D"; "N"; "S"; "H"; "P"; "="; "X"]%char.

Definition is_op : Re.charclass := Re.one_of operator_codes.

(** [r'[0-9]+[MIDNSHP=X]'] *)
Definition cigar_re : Re.pattern := [Re.Many1 is_digit; Re.One is_op].

(** [int(c)] on a string of decimal digits. *)
Definition digit_value (c : ascii) : Z := Z.of_nat (nat_of_ascii c) - 48.

Definition int (ds : list ascii) : Z :=
  fold_left (fun acc c => 10 * acc + digit_value c) ds 0.

(** Python's built-in [sum]. *)
Definition sum (l : list Z) : Z := fold_left Z.add l 0.

(** An operator is a pair (size, code); the code is the one-character
    string [c[-1]]. *)
Definition operator : Type := Z * ascii.

(** [(int(c[:-1]), c[-1])] for a match [c] (never empty). *)
Definition operator_of_match (c : list ascii) : operator :=
  (int (removelast c), last c "000"%char).

Definition operators_of (s : list ascii) : list operator :=
  map operator_of_match (Re.findall cigar_re s).

Definition cigar_to_operators (cigar : string) : list operator :=
  operators_of (list_ascii_of_string cigar).

Definition get_length (cigar : string) : Z :=
  let re_cigar := cigar_to_operators cigar in
  sum (map fst
         (filter (fun o => negb (Re.one_of ["D"; "N"; "H"; "P"]%char (snd o)))
                 re_cigar)).

(** ** The index map *)

(** An entry is (index just before the indel, coordinate adjustment). *)
Definition entry : Type := Z * Z.

(** The variables of the loop of [make_index_map]. *)
Record loop_state : Type := mk_state {
  transcript_index_map : list entry;
  ref_size : Z;
  trans_size : Z
}.

Definition loop_init : loop_state := mk_state [] 0 0.

(** The body of the loop. *)
Definition loop_body (st : loop_state) (o : operator) : loop_state :=
  let '(size, code) := o in
  if Re.one_of ["M"; "="; "X"]%char code then
    mk_state (transcript_index_map st) (ref_size st + size) (trans_size st + size)
  else if Re.one_of ["D"; "N"]%char code then
    mk_state (transcript_index_map st ++ [(trans_size st - 1, size)])
             (ref_size st + size) (trans_size st)
  else if Re.one_of ["I"; "S"]%char code then
    mk_state (transcript_index_map st ++ [(trans_size st - 1, - size)])
             (ref_size st) (trans_size st + size)
  else st.

Definition index_loop (ops : list operator) : loop_state :=
  fold_left loop_body ops loop_init.

Definition make_index_map (cigar : string) : list entry :=
  transcript_index_map (index_loop (cigar_to_operators cigar)).

(** ** The translator *)

(** [l[-1]] when [l] is not empty. *)
Definition last_entry (l : list entry) : option entry :=
  match l with
  | [] => None
  | e :: _ => Some (last l e)
  end.

(** The entries [a] of the index map with [coordinate_query > a[0]]. *)
Definition mapped (coordinate_query : Z) (index_map : list entry) : list entry :=
  filter (fun a => coordinate_query >? fst a) index_map.

(** [None] is Python's [None]. *)
Definition translate_coordinate (coordinate_query : Z) (index_map : list entry)
           (ref_start transcript_length : Z) : option Z :=
  if (coordinate_query >=? transcript_length) || (coordinate_query <? 0) then None
  else
    let mapped_adjusts := mapped coordinate_query index_map in
    let ref_coord :=
      sum [ref_start; coordinate_query; sum (map snd mapped_adjusts)] in
    match last_entry mapped_adjusts with
    | Some last_adjust =>
        if snd last_adjust <? 0 then
          let diff := fst last_adjust - coordinate_query - snd last_adjust in
          if diff >? 0 then Some (ref_coord + diff) else Some ref_coord
        else Some ref_coord
    | None => Some ref_coord
    end.

(** ** Exceptions and dictionaries *)

(** The exceptions the modelled code raises. *)
Inductive exn : Type :=
| IndexError                 (* [t[i]] past the end of a row *)
| IntError (s : string)      (* [int(s)] on a string that is no integer *)
| UnpackError                (* [for a, b in rows] on a row not of two fields *)
| KeyError (k : string)      (* [d[k]] on a missing key *)
| NoCoordinate (transcript_name : string) (query : Z).
                             (* the [ValueError] that [main] raises *)

(** A [dict] with string keys, in insertion order. *)
Definition dict (V : Type) : Type := list (string * V).

Module Dict.

(** [d[k]], [None] standing for [KeyError]. *)
Fixpoint get {V : Type} (d : dict V) (k : string) : option V :=
  match d with
  | [] => None
  | (k', v) :: d' => if String.eqb k' k then Some v else get d' k
  end.

(** [d[k] = v]: a key already there keeps its place. *)
Fixpoint set {V : Type} (d : dict V) (k : string) (v : V) : dict V :=
  match d with
  | [] => [(k, v)]
  | (k', v') :: d' =>
      if String.eqb k' k then (k', v) :: d' else (k', v') :: set d' k v
  end.

Definition keys {V : Type} (d : dict V) : list string := map fst d.

(** No key twice, as in every [dict]. *)
Definition wf {V : Type} (d : dict V) : Prop := NoDup (keys d).

End Dict.

(** ** The batch run of [cigar_translate.main]

    The three files are outside the model: [main] is given the rows that
    [csv.reader] returns for the transcripts and for the queries, and
    returns the rows it passes to [writerow].  [py_int] is Python's
    [int] on a string, [None] when it raises. *)

Module Batch.

Record Transcript : Type := mk_Transcript {
  name : string;
  chromosome : string;
  ref_start : Z;
  cigar : string;
  transcript_length : Z;
  index_map : list entry
}.

(** A row of the output: transcript name, query, chromosome, reference
    coordinate. *)
Definition out_row : Type := (string * Z * string * Z)%type.

(** [t[i]] *)
Definition subscript (t : list string) (i : nat) : exn + string :=
  match nth_error t i with
  | Some x => inr x
  | None => inl IndexError
  end.

Definition int_of (py_int : string -> option Z) (s : string) : exn + Z :=
  match py_int s with
  | Some z => inr z
  | None => inl (IntError s)
  end.

(** The [Transcript(...)] built from a row [t], its arguments evaluated
    from left to right. *)
Definition make_transcript (py_int : string -> option Z) (t : list string)
  : exn + Transcript :=
  match subscript t 0 with inl e => inl e | inr name =>
  match subscript t 1 with inl e => inl e | inr chromosome =>
  match subscript t 2 with inl e => inl e | inr start =>
  match int_of py_int start with inl e => inl e | inr ref_start =>
  match subscript t 3 with inl e => inl e | inr cigar =>
    inr (mk_Transcript name chromosome ref_start cigar
                       (get_length cigar) (make_index_map cigar))
  end end end end end.

(** The first loop: [transcript_alignments[t[0]] = Transcript(...)]. *)
Fixpoint load_transcripts (py_int : string -> option Z)
         (rows : list (list string)) (transcript_alignments : dict Transcript)
  : exn + dict Transcript :=
  match rows with
  | [] => inr transcript_alignments
  | t :: rest =>
      match make_transcript py_int t with
      | inl e => inl e
      | inr tr =>
          load_transcripts py_int rest
                           (Dict.set transcript_alignments (name tr) tr)
      end
  end.

(** The body of the second loop, up to the row it writes. *)
Definition query_row (py_int : string -> option Z)
           (transcript_alignments : dict Transcript) (row : list string)
  : exn + out_row :=
  match row with
  | [transcript_name; query] =>
      match int_of py_int query with inl e => inl e | inr query =>
      match Dict.get transcript_alignments transcript_name with
      | None => inl (KeyError transcript_name)
      | Some transcript =>
          match translate_coordinate query (index_map transcript)
                                     (ref_start transcript)
                                     (transcript_length transcript) with
          | None => inl (NoCoordinate transcript_name query)
          | Some ref_coord =>
              inr (transcript_name, query, chromosome transcript, ref_coord)
          end
      end end
  | _ => inl UnpackError
  end.

(** The second loop: the rows written so far, and the exception that
    stopped it, if any. *)
Fixpoint run_queries (py_int : string -> option Z)
         (transcript_alignments : dict Transcript)
         (raw_queries : list (list string)) (written : list out_row)
  : list out_row * option exn :=
  match raw_queries with
  | [] => (written, None)
  | row :: rest =>
      match query_row py_int transcript_alignments row with
      | inl e => (written, Some e)
      | inr r => run_queries py_int transcript_alignments rest (written ++ [r])
      end
  end.

(** [main]: an exception of the first loop comes before the output file is
    opened; otherwise the output holds the rows written, whether or not
    the second loop ran to its end. *)
Definition main (py_int : string -> option Z)
           (transcripts queries : list (list string))
  : exn + (list out_row * option exn) :=
  match load_transcripts py_int transcripts [] with
  | inl e => inl e
  | inr transcript_alignments =>
      inr (run_queries py_int transcript_alignments queries [])
  end.

(** What [load_transcripts] keeps of every transcript: the cached length
    and index map are those of its CIGAR string, under its own name. *)
Definition cached (d : dict Transcript) : Prop :=
  Forall (fun kv => name (snd kv) = fst kv /\
                    transcript_length (snd kv) = get_length (cigar (snd kv)) /\
                    index_map (snd kv) = make_index_map (cigar (snd kv))) d.

(** A query row that [main] answers from [d]. *)
Definition answerable (py_int : string -> option Z) (d : dict Transcript)
           (row : list string) : Prop :=
  exists transcript_name query q tr,
    row = [transcript_name; query] /\ py_int query = Some q /\
    Dict.get d transcript_name = Some tr /\
    0 <= q < get_length (cigar tr).

(** [int] on strings of decimal digits, for the examples. *)
Definition int_digits (s : string) : option Z :=
  match list_ascii_of_string s with
  | [] => None
  | ds => if forallb is_digit ds then Some (int ds) else None
  end.

End Batch.

(** ** Definitions that follow the specification's wording *)

(** The parser as the specification words it: one left-to-right pass that
    keeps the digits of the run it is in ([run], empty outside a run);
    an operator code right after a non-empty run yields a pair, and any
    other character that is not a digit is skipped and ends the run. *)
Fixpoint spec_scan (run : list ascii) (s : list ascii) : list operator :=
  match s with
  | [] => []
  | c :: s' =>
      if is_digit c then spec_scan (run ++ [c]) s'
      else if is_op c && negb (Nat.eqb (List.length run) 0)
           then (int run, c) :: spec_scan [] s'
           else spec_scan [] s'
  end.

Definition spec_operators (cigar : string) : list operator :=
  spec_scan [] (list_ascii_of_string cigar).

(** A digit immediately followed by an operator code, somewhere in [s]. *)
Definition has_operator_run (s : list ascii) : Prop :=
  exists p d c r, s = p ++ d :: c :: r /\ is_digit d = true /\ is_op c = true.

(** The transcript length as the specification words it: the sum of the
    sizes of the operators with a code in {M, I, S, =, X}. *)
Fixpoint spec_length (ops : list operator) : Z :=
  match ops with
  | [] => 0
  | (size, code) :: rest =>
      if Re.one_of ["M"; "I"; "S"; "="; "X"]%char code
      then size + spec_length rest
      else spec_length rest
  end.

(** [s] does not end in a digit: nothing that follows it can extend a run
    of [s].  It holds of a string that ends with an operator code. *)
Definition closed_run (s : list ascii) : bool :=
  match rev s with
  | [] => true
  | c :: _ => negb (is_digit c)
  end.

(** The index map builder as the specification words it, as a run of the
    two counters over the operators: [index_map_spec r t ops m r' t'] says
    that from [ref_size = r] and [trans_size = t] the operators [ops] emit
    the entries [m] and leave the counters at [r'] and [t']. *)
Inductive index_map_spec : Z -> Z -> list operator -> list entry -> Z -> Z -> Prop :=
| spec_end r t :
    index_map_spec r t [] [] r t
| spec_match r t size code ops m r' t' :
    In code ["M"; "="; "X"]%char ->
    index_map_spec (r + size) (t + size) ops m r' t' ->
    index_map_spec r t ((size, code) :: ops) m r' t'
| spec_deletion r t size code ops m r' t' :
    In code ["D"; "N"]%char ->
    index_map_spec (r + size) t ops m r' t' ->
    index_map_spec r t ((size, code) :: ops) ((t - 1, size) :: m) r' t'
| spec_insertion r t size code ops m r' t' :
    In code ["I"; "S"]%char ->
    index_map_spec r (t + size) ops m r' t' ->
    index_map_spec r t ((size, code) :: ops) ((t - 1, - size) :: m) r' t'
| spec_inert r t size code ops m r' t' :
    In code ["H"; "P"]%char ->
    index_map_spec r t ops m r' t' ->
    index_map_spec r t ((size, code) :: ops) m r' t'.

(** The sum of the adjustments of the entries anchored strictly before
    the query. *)
Fixpoint total_adjustment (query : Z) (index_map : list entry) : Z :=
  match index_map with
  | [] => 0
  | (anchor_index, adjustment) :: rest =>
      if anchor_index <? query
      then adjustment + total_adjustment query rest
      else total_adjustment query rest
  end.

(** [e] is the last entry of the index map, in list order, among those
    anchored strictly before the query. *)
Definition last_selected (query : Z) (index_map : list entry) (e : entry) : Prop :=
  exists pre post,
    index_map = pre ++ e :: post /\ fst e < query /\
    Forall (fun e' => query <= fst e') post.

(** [e] is an entry of largest anchor among those anchored strictly
    before the query. *)
Definition largest_selected (query : Z) (index_map : list entry) (e : entry) : Prop :=
  In e index_map /\ fst e < query /\
  forall e', In e' index_map -> fst e' < query -> fst e' <= fst e.

(** Step 4 of the translator does not change the coordinate for [e]. *)
Definition no_correction (query : Z) (e : entry) : Prop :=
  0 <= snd e \/ fst e - query - snd e <= 0.

(** The order of the index map: by anchor. *)
Definition anchor_le (e1 e2 : entry) : Prop := fst e1 <= fst e2.

(** ** Auxiliary definitions for the proofs *)

(** What the parser guarantees of an operator. *)
Definition valid_op (o : operator) : Prop :=
  0 <= fst o /\ is_op (snd o) = true.

(** The entries the loop of [make_index_map] appends when it runs over
    [ops] from [trans_size = t]. *)
Fixpoint entries_from (t : Z) (ops : list operator) : list entry :=
  match ops with
  | [] => []
  | (size, code) :: rest =>
      if Re.one_of ["M"; "="; "X"]%char code then entries_from (t + size) rest
      else if Re.one_of ["D"; "N"]%char code then
        (t - 1, size) :: entries_from t rest
      else if Re.one_of ["I"; "S"]%char code then
        (t - 1, - size) :: entries_from (t + size) rest
      else entries_from t rest
  end.

(** The left-aligned reference offset of a query [q >= t], read off the
    operators directly: [t] is the transcript index the first operator
    starts at. *)
Fixpoint aligned (t : Z) (ops : list operator) (q : Z) : Z :=
  match ops with
  | [] => q
  | (size, code) :: rest =>
      if Re.one_of ["M"; "="; "X"]%char code then
        if q <? t + size then q else aligned (t + size) rest q
      else if Re.one_of ["D"; "N"]%char code then size + aligned t rest q
      else if Re.one_of ["I"; "S"]%char code then
        if q <? t + size then t - 1 else - size + aligned (t + size) rest q
      else aligned t rest q
  end.

(** The correction of step 4, as a number added to the coordinate. *)
Definition correction (q : Z) (sel : list entry) : Z :=
  match last_entry sel with
  | Some e =>
      if snd e <? 0 then
        if fst e - q - snd e >? 0 then fst e - q - snd e else 0
      else 0
  | None => 0
  end.

Definition all_digits (ds : list ascii) : Prop :=
  Forall (fun c => is_digit c = true) ds.

(** Nothing can be matched at the head of [s]: it is empty, or starts with
    a character that is neither a digit nor an operator code. *)
Definition stuck (s : list ascii) : Prop :=
  match s with
  | [] => True
  | c :: _ => is_digit c = false /\ is_op c = false
  end.

(** The distance from [ref_start] of the coordinate computed for a query
    in range. *)
Definition offset (q : Z) (index_map : list entry) : Z :=
  q + sum (map snd (mapped q index_map)) + correction q (mapped q index_map).

(** The reference bases consumed by the operators: the sizes of those with
    a code in {M, =, X, D, N}. *)
Fixpoint ref_length (ops : list operator) : Z :=
  match ops with
  | [] => 0
  | (size, code) :: rest =>
      if Re.one_of ["M"; "="; "X"; "D"; "N"]%char code
      then size + ref_length rest
      else ref_length rest
  end.

(** The operators that break the 1:1 correspondence. *)
Definition is_indel (o : operator) : bool :=
  Re.one_of ["D"; "N"; "I"; "S"]%char (snd o).

(** ** [hgvs_annotations]: the transformation of the annotations

    The REST queries and the files are outside the model: it starts from
    the decoded JSON responses and ends with the rows passed to
    [writerow]. *)

Module Hgvs.

Section Json.

(** Python's floats, which the model does not look into. *)
Context {float : Type}.

(** The values that are neither a [list] nor a [dict]. *)
Inductive atom : Type :=
| ANone
| ABool (b : bool)
| AInt (z : Z)
| AFloat (f : float)
| AStr (s : string).

(** A decoded JSON document. *)
#[warnings="-register-all"]
Inductive value : Type :=
| Atom (a : atom)
| PyList (l : list value)
| PyDict (d : list (string * value)).

(** [isinstance(v, (list, dict))] *)
Definition is_container (v : value) : bool :=
  match v with
  | Atom _ => false
  | PyList _ | PyDict _ => true
  end.

(** [list(find_my_keys(key, data))] *)
Fixpoint find_my_keys (key : string) (data : value) : list value :=
  match data with
  | PyDict d =>
      flat_map (fun kv =>
                  if negb (is_container (snd kv)) && String.eqb (fst kv) key
                  then [snd kv]
                  else find_my_keys key (snd kv)) d
  | PyList l => flat_map (fun subelement => find_my_keys key subelement) l
  | Atom _ => []
  end.

Definition NA : value := Atom (AStr "NA").

(** The body of the loop of [transform_ensembl_annotations]. *)
Definition transform_key (annotation : dict value)
           (decoded_annotation : dict value) (key : string) : dict value :=
  let value := find_my_keys key (PyDict annotation) in
  match Dict.get annotation key with
  | Some v =>
      if negb (is_container v) then Dict.set decoded_annotation key v
      else if Nat.eqb (List.length value) 0
           then Dict.set decoded_annotation key NA
           else Dict.set decoded_annotation key (PyList value)
  | None =>
      if Nat.eqb (List.length value) 0
      then Dict.set decoded_annotation key NA
      else Dict.set decoded_annotation key (PyList value)
  end.

Definition transform_ensembl_annotations (annotation : dict value)
           (keys_of_interest : list string) : dict value :=
  fold_left (transform_key annotation) keys_of_interest [].

(** Python's [str] on a float and on a list or dict, which the model does
    not spell out. *)
Variable repr_float : float -> string.
Variable str_container : value -> string.

(** [str(v)] *)
Definition str (v : value) : string :=
  match v with
  | Atom ANone => "None"
  | Atom (ABool true) => "True"
  | Atom (ABool false) => "False"
  | Atom (AInt z) => NilZero.string_of_int (Z.to_int z)
  | Atom (AFloat f) => repr_float f
  | Atom (AStr s) => s
  | PyList _ | PyDict _ => str_container v
  end.

(** [isinstance(v, (str, int, float))]; a [bool] is an [int]. *)
Definition is_scalar (v : value) : bool :=
  match v with
  | Atom ANone => false
  | Atom _ => true
  | PyList _ | PyDict _ => false
  end.

(** [sorted] on strings, which Python compares by code point: the order of
    the bytes of their UTF-8 encoding.  Equal strings being the same
    string, every sorting algorithm returns the same list. *)
Fixpoint insert (x : string) (l : list string) : list string :=
  match l with
  | [] => [x]
  | y :: l' => if String.leb x y then x :: l else y :: insert x l'
  end.

Definition sorted (l : list string) : list string := fold_right insert [] l.

(** [','.join(sorted({str(found) for found in value}))]: the set holds
    each string once, in no order that [sorted] would keep. *)
Definition joined (value : list value) : string :=
  String.concat "," (sorted (nodup string_dec (map str value))).

(** The cell of a value, if it has one: its string for a str, int, float
    or bool, its joined strings for a list, none for [None] or a dict. *)
Definition cell (v : value) : list string :=
  match v with
  | Atom ANone => []
  | Atom _ => [str v]
  | PyList l => [joined l]
  | PyDict _ => []
  end.

(** The values for which one of the two branches below appends a cell. *)
Definition writable (v : value) : bool :=
  match v with
  | Atom ANone | PyDict _ => false
  | Atom _ | PyList _ => true
  end.

(** The two branches that append a cell to a row. *)
Definition append_cell (writable_output : list string) (v : value)
  : list string :=
  if is_scalar v then writable_output ++ [str v]
  else match v with
       | PyList l => writable_output ++ [joined l]
       | _ => writable_output
       end.

(** The loop over [col_headers] for one row. *)
Fixpoint row_loop (extract : dict value) (col_headers : list string)
         (writable_output : list string) : exn + list string :=
  match col_headers with
  | [] => inr writable_output
  | key :: rest =>
      match Dict.get extract key with
      | None => inl (KeyError key)
      | Some v => row_loop extract rest (append_cell writable_output v)
      end
  end.

(** The loop over the sorted queries: the rows written so far and the
    exception that stopped it, if any. *)
Fixpoint rows_loop (transformed_annotations : dict (dict value))
         (col_headers : list string) (sorted_queries : list string)
         (written : list (list string))
  : list (list string) * option exn :=
  match sorted_queries with
  | [] => (written, None)
  | hgvs :: rest =>
      match Dict.get transformed_annotations hgvs with
      | None => (written, Some (KeyError hgvs))
      | Some extract =>
          match row_loop extract col_headers [hgvs] with
          | inl e => (written, Some e)
          | inr row =>
              rows_loop transformed_annotations col_headers rest
                        (written ++ [row])
          end
      end
  end.

Definition make_transformed_annotations_tsv
           (transformed_annotations : dict (dict value))
           (col_headers : list string)
  : list (list string) * option exn :=
  rows_loop transformed_annotations col_headers
            (sorted (Dict.keys transformed_annotations))
            [("query"%string :: col_headers)].

Definition keys_of_interest : list string :=
  ["id"; "gene_id"; "gene_symbol"; "codons"; "impact";
   "most_severe_consequence"; "clin_sig_allele"; "error"]%string.

(** The dict comprehension of [main]. *)
Definition transform_all (hgvs_annotations : dict (dict value))
  : dict (dict value) :=
  fold_left (fun transformed kv =>
               Dict.set transformed (fst kv)
                        (transform_ensembl_annotations (snd kv) keys_of_interest))
            hgvs_annotations [].

(** [main], from the annotations that [extract_hgvs_annotations]
    returns. *)
Definition main (hgvs_annotations : dict (dict value))
  : list (list string) * option exn :=
  make_transformed_annotations_tsv (transform_all hgvs_annotations)
                                   keys_of_interest.

(** [v] is a value of [key] that is no list or dict, in a dict at any
    depth of [data]. *)
Inductive occurs (key : string) (v : value) : value -> Prop :=
| occurs_here d :
    In (key, v) d -> is_container v = false -> occurs key v (PyDict d)
| occurs_in_dict d k child :
    In (k, child) d -> occurs key v child -> occurs key v (PyDict d)
| occurs_in_list l child :
    In child l -> occurs key v child -> occurs key v (PyList l).

End Json.

(** The data of [tests/test_hgvs_annotations.py]; they hold no float. *)
Definition TEST_DICT : dict (@value unit) :=
  [("A", Atom (AInt 1));
   ("B", PyList [PyDict [("A", Atom (AInt 2))];
                 PyDict [("A", Atom (AInt 3)); ("B", Atom (AInt 4))];
                 PyDict [("C", Atom (AInt 5))]]);
   ("C", PyDict [("C", Atom (AInt 6)); ("D", Atom (AStr "7"))])]%string.

Definition TEST_ANNOTATIONS : dict (dict (@value unit)) :=
  [("A", [("a", Atom (AInt 1));
          ("b", PyList [Atom (AInt 2); Atom (AInt 3); Atom (AStr "4")]);
          ("c", Atom (AStr "5"))]);
   ("B", [("a", PyList [Atom (AInt 6); Atom (AStr "7")]);
          ("b", Atom (AInt 8)); ("c", Atom (AInt 9));
          ("d", Atom (AStr "10"))])]%string.

(** Stand-ins for [str] on what the test data do not hold. *)
Definition no_float (f : unit) : string := "0.0".
Definition no_container (v : @value unit) : string := EmptyString.

End Hgvs.

(** The order of [sorted]. *)
Definition string_le (a b : string) : Prop := String.leb a b = true.

(** * Properties *)

(** ** The matcher and [findall] *)

Lemma match_here_split p s m r :
  Re.match_here p s = Some (m, r) -> s = m ++ r.
Proof.
  revert p m r. induction s as [|c s IH]; intros p m r H.
  - destruct p as [|[cls|cls] p]; simpl in H; try discriminate.
    now inversion H.
  - destruct p as [|[cls|cls] p]; simpl in H.
    + now inversion H.
    + destruct (cls c); try discriminate.
      destruct (Re.match_here p s) as [[m' r']|] eqn:E; try discriminate.
      inversion H; subst. simpl. f_equal. eauto.
    + destruct (cls c); try discriminate.
      destruct (Re.match_here (Re.Many1 cls :: p) s) as [[m' r']|] eqn:E.
      * inversion H; subst. simpl. f_equal. eauto.
      * destruct (Re.match_here p s) as [[m' r']|] eqn:E'; try discriminate.
        inversion H; subst. simpl. f_equal. eauto.
Qed.

Lemma match_cigar_shorter s m r :
  Re.match_here cigar_re s = Some (m, r) -> (List.length r < List.length s)%nat.
Proof.
  intros H. pose proof (match_here_split _ _ _ _ H) as Hs.
  destruct m as [|x m]; [|subst s; rewrite length_app; simpl; lia].
  destruct s as [|c s]; [discriminate|].
  simpl in H. destruct (is_digit c); try discriminate.
  destruct (Re.match_here _ s) as [[? ?]|]; try discriminate.
  destruct (Re.match_here _ s) as [[? ?]|]; discriminate.
Qed.

(** [findall] never runs out of fuel: any larger amount gives the same
    matches. *)
Lemma findall_fuel_enough fuel s :
  (List.length s <= fuel)%nat ->
  Re.findall_fuel fuel cigar_re s = Re.findall cigar_re s.
Proof.
  unfold Re.findall.
  remember (List.length s) as n eqn:En.
  assert (Hn : (List.length s <= n)%nat) by lia. clear En.
  revert s fuel Hn.
  induction n as [|n IH]; intros s fuel Hn Hf.
  - destruct s; [|simpl in Hn; lia]. now destruct fuel.
  - destruct fuel as [|fuel]; [lia|].
    destruct s as [|c s]; [reflexivity|].
    cbn [Re.findall_fuel].
    destruct (Re.match_here cigar_re (c :: s)) as [[m r]|] eqn:E.
    + apply match_cigar_shorter in E. simpl in *.
      f_equal. apply IH; lia.
    + simpl in *. apply IH; lia.
Qed.

Lemma findall_nil : Re.findall cigar_re [] = [].
Proof. reflexivity. Qed.

Lemma findall_match s m r :
  Re.match_here cigar_re s = Some (m, r) ->
  Re.findall cigar_re s = m :: Re.findall cigar_re r.
Proof.
  intros H. pose proof (match_cigar_shorter _ _ _ H) as Hl.
  destruct s as [|c s]; [discriminate|].
  unfold Re.findall at 1. cbn [List.length Re.findall_fuel]. rewrite H.
  f_equal. apply findall_fuel_enough. simpl in Hl. lia.
Qed.

Lemma findall_skip c s :
  Re.match_here cigar_re (c :: s) = None ->
  Re.findall cigar_re (c :: s) = Re.findall cigar_re s.
Proof.
  intros H. unfold Re.findall at 1. cbn [List.length Re.findall_fuel].
  rewrite H. reflexivity.
Qed.

(** ** Digit runs *)

Lemma is_op_not_digit c : is_op c = true -> is_digit c = false.
Proof.
  destruct c as [[] [] [] [] [] [] [] []]; vm_compute; congruence.
Qed.

Lemma is_digit_not_op c : is_digit c = true -> is_op c = false.
Proof.
  intros H. destruct (is_op c) eqn:E; [|reflexivity].
  apply is_op_not_digit in E. congruence.
Qed.

Lemma match_here_nil s : Re.match_here [] s = Some ([], s).
Proof. now destruct s. Qed.

Lemma match_op_cons c s :
  Re.match_here [Re.One is_op] (c :: s) = if is_op c then Some ([c], s) else None.
Proof.
  cbn [Re.match_here]. rewrite match_here_nil. reflexivity.
Qed.

Lemma match_cigar_cons d s :
  Re.match_here cigar_re (d :: s) =
  if is_digit d then
    match Re.match_here cigar_re s with
    | Some (m, r) => Some (d :: m, r)
    | None =>
        match Re.match_here [Re.One is_op] s with
        | Some (m, r) => Some (d :: m, r)
        | None => None
        end
    end
  else None.
Proof. reflexivity. Qed.

Lemma match_not_digit c s :
  is_digit c = false -> Re.match_here cigar_re (c :: s) = None.
Proof. intros H. rewrite match_cigar_cons. now rewrite H. Qed.

(** A whole run of digits followed by an operator code is one match. *)
Lemma match_run ds c s :
  all_digits ds -> ds <> [] -> is_op c = true ->
  Re.match_here cigar_re (ds ++ c :: s) = Some (ds ++ [c], s).
Proof.
  intros Hds Hne Hc. induction Hds as [|d ds Hd Hds IH]; [congruence|].
  rewrite <- app_comm_cons, match_cigar_cons, Hd.
  destruct ds as [|d' ds].
  - cbn [app]. rewrite (match_not_digit _ _ (is_op_not_digit _ Hc)).
    now rewrite match_op_cons, Hc.
  - now rewrite IH by discriminate.
Qed.

(** A run of digits that no operator code follows gives no match, however
    many of its digits the [+] gives back. *)
Lemma match_dead_run ds s :
  all_digits ds -> stuck s -> Re.match_here cigar_re (ds ++ s) = None.
Proof.
  intros Hds Hs. induction Hds as [|d ds Hd Hds IH].
  - destruct s as [|c s]; [reflexivity|].
    destruct Hs as [Hc _]. now apply match_not_digit.
  - rewrite <- app_comm_cons, match_cigar_cons, Hd, IH.
    destruct Hds as [|d' ds Hd' Hds].
    + destruct s as [|c s]; [reflexivity|].
      destruct Hs as [_ Hc]. cbn [app]. now rewrite match_op_cons, Hc.
    + rewrite <- app_comm_cons, match_op_cons.
      now rewrite (is_digit_not_op _ Hd').
Qed.

Lemma findall_dead_run ds s :
  all_digits ds -> stuck s ->
  Re.findall cigar_re (ds ++ s) = Re.findall cigar_re s.
Proof.
  intros Hds Hs. induction Hds as [|d ds Hd Hds IH]; [reflexivity|].
  rewrite <- IH. apply findall_skip.
  apply (match_dead_run (d :: ds) s); [now constructor | assumption].
Qed.

Lemma operator_of_run ds c : operator_of_match (ds ++ [c]) = (int ds, c).
Proof.
  unfold operator_of_match. now rewrite removelast_last, last_last.
Qed.

(** The matches of the regular expression are the pairs of the
    left-to-right scan, from any point of a run of digits on. *)
Lemma operators_of_scan s : forall run,
  all_digits run -> operators_of (run ++ s) = spec_scan run s.
Proof.
  unfold operators_of.
  induction s as [|c s IH]; intros run Hrun.
  - rewrite (findall_dead_run run []) by (assumption || exact I). reflexivity.
  - cbn [spec_scan]. destruct (is_digit c) eqn:Hd.
    + rewrite <- IH by (apply Forall_app; split; [assumption | now repeat constructor]).
      now rewrite <- app_assoc.
    + destruct (is_op c) eqn:Ho; cbn [andb].
      * destruct run as [|d run]; cbn [List.length Nat.eqb negb].
        -- cbn [app]. rewrite findall_skip by now apply match_not_digit.
           exact (IH [] (Forall_nil _)).
        -- rewrite (findall_match _ _ _ (match_run (d :: run) c s Hrun ltac:(discriminate) Ho)).
           cbn [map]. rewrite operator_of_run. f_equal.
           exact (IH [] (Forall_nil _)).
      * rewrite (findall_dead_run run (c :: s)) by (assumption || now split).
        rewrite findall_skip by now apply match_not_digit.
        exact (IH [] (Forall_nil _)).
Qed.

Lemma operators_scan_nil s : operators_of s = spec_scan [] s.
Proof. exact (operators_of_scan s [] (Forall_nil _)). Qed.

Lemma digit_value_nonneg c : is_digit c = true -> 0 <= digit_value c.
Proof.
  unfold is_digit, Re.in_range, digit_value. intros H.
  apply andb_prop in H. destruct H as [H _].
  apply Nat.leb_le in H. change (nat_of_ascii "0") with 48%nat in H. lia.
Qed.

Lemma int_nonneg ds : all_digits ds -> 0 <= int ds.
Proof.
  unfold int. intros Hds.
  assert (H : forall acc, 0 <= acc ->
            0 <= fold_left (fun acc c => 10 * acc + digit_value c) ds acc).
  { induction Hds as [|d ds Hd Hds IH]; intros acc Hacc; cbn [fold_left].
    - assumption.
    - apply IH. pose proof (digit_value_nonneg _ Hd). lia. }
  apply H. lia.
Qed.

Lemma spec_scan_valid s : forall run,
  all_digits run -> Forall valid_op (spec_scan run s).
Proof.
  induction s as [|c s IH]; intros run Hrun; cbn [spec_scan].
  - constructor.
  - destruct (is_digit c) eqn:Hd.
    + apply IH, Forall_app. split; [assumption | now repeat constructor].
    + destruct (is_op c) eqn:Ho; cbn [andb].
      * destruct (negb _).
        -- constructor; [|apply IH; constructor].
           split; [now apply int_nonneg | assumption].
        -- apply IH; constructor.
      * apply IH; constructor.
Qed.

Lemma operators_valid cigar : Forall valid_op (cigar_to_operators cigar).
Proof.
  unfold cigar_to_operators.
  rewrite (operators_scan_nil (list_ascii_of_string cigar)).
  apply spec_scan_valid. constructor.
Qed.

(** ** The parser against the specification *)

Lemma has_run_cons x s : has_operator_run s -> has_operator_run (x :: s).
Proof.
  intros (p & d & c & r & -> & Hd & Hc).
  exists (x :: p), d, c, r. now repeat split.
Qed.

Lemma scan_run_found s :
  has_operator_run s -> forall run, spec_scan run s <> [].
Proof.
  intros (p & d & c & r & -> & Hd & Hc).
  induction p as [|x p IH]; intros run.
  - cbn [app spec_scan]. rewrite Hd, (is_op_not_digit _ Hc), Hc.
    rewrite length_app, Nat.add_comm. discriminate.
  - cbn [app spec_scan].
    destruct (is_digit x); [apply IH|].
    destruct (is_op x && _); [discriminate | apply IH].
Qed.

Lemma scan_no_run s : forall run,
  ~ has_operator_run s ->
  run = [] \/ match s with [] => True | c :: _ => is_op c = false end ->
  spec_scan run s = [].
Proof.
  induction s as [|c s IH]; intros run Hno Hhead; [reflexivity|].
  cbn [spec_scan]. destruct (is_digit c) eqn:Hd.
  - apply IH.
    + intros H. apply Hno. now apply has_run_cons.
    + right. destruct s as [|c' s]; [exact I|].
      destruct (is_op c') eqn:Ho; [|reflexivity].
      exfalso. apply Hno. exists [], c, c', s. now repeat split.
  - assert (Hs : spec_scan [] s = []).
    { apply IH; [|now left]. intros H. apply Hno. now apply has_run_cons. }
    destruct Hhead as [-> | Hc].
    + now rewrite andb_false_r.
    + now rewrite Hc.
Qed.

Lemma operators_nil_iff s : operators_of s = [] <-> ~ has_operator_run s.
Proof.
  rewrite operators_scan_nil. split.
  - intros H Hrun. exact (scan_run_found s Hrun [] H).
  - intros H. apply scan_no_run; [assumption | now left].
Qed.

(** ** The transcript length *)

Lemma sum_cons x l : sum (x :: l) = x + sum l.
Proof.
  unfold sum. cbn [fold_left]. change (0 + x) with x.
  assert (H : forall l a b, fold_left Z.add l (a + b) = a + fold_left Z.add l b).
  { clear. induction l as [|y l IH]; intros a b; cbn [fold_left].
    - reflexivity.
    - now rewrite <- Z.add_assoc, IH. }
  rewrite <- (Z.add_0_r x) at 1. apply H.
Qed.

Lemma is_op_cases c :
  is_op c = true ->
  In c ["M"; "="; "X"]%char \/ In c ["D"; "N"]%char \/
  In c ["I"; "S"]%char \/ In c ["H"; "P"]%char.
Proof.
  destruct c as [[] [] [] [] [] [] [] []]; vm_compute; intros H;
    try discriminate; tauto.
Qed.

Ltac op_cases H :=
  apply is_op_cases in H; cbn [In] in H;
  repeat match type of H with
         | _ \/ _ => destruct H as [H | H]
         | False => destruct H
         | _ = _ => subst
         end.

(** Decide the membership tests on a known operator code. *)
Ltac eval_codes :=
  repeat match goal with
         | |- context [Re.one_of ?l ?c] =>
             let b := eval vm_compute in (Re.one_of l c) in
             change (Re.one_of l c) with b
         end;
  cbn iota.

Lemma length_filter_spec ops :
  Forall valid_op ops ->
  sum (map fst
         (filter (fun o => negb (Re.one_of ["D"; "N"; "H"; "P"]%char (snd o))) ops))
  = spec_length ops.
Proof.
  induction 1 as [|[size code] ops [_ Hc] _ IH]; [reflexivity|].
  cbn [snd] in Hc. cbn [filter spec_length snd].
  op_cases Hc; eval_codes; cbn [negb map fst]; rewrite ?sum_cons, IH;
    reflexivity.
Qed.

Lemma get_length_sum cigar :
  get_length cigar = spec_length (cigar_to_operators cigar).
Proof. apply length_filter_spec, operators_valid. Qed.

Lemma list_ascii_of_string_app (a b : string) :
  list_ascii_of_string (a ++ b)%string =
  list_ascii_of_string a ++ list_ascii_of_string b.
Proof.
  induction a as [|c a IH]; [reflexivity|].
  cbn. now rewrite IH.
Qed.

Lemma scan_app_closed s : forall run c g,
  is_digit c = false ->
  spec_scan run (s ++ c :: g) = spec_scan run (s ++ [c]) ++ spec_scan [] g.
Proof.
  induction s as [|x s IH]; intros run c g Hc.
  - cbn [app spec_scan]. rewrite Hc.
    now destruct (is_op c && _).
  - cbn [app spec_scan].
    destruct (is_digit x); [now apply IH|].
    destruct (is_op x && _); [rewrite <- app_comm_cons; f_equal|]; now apply IH.
Qed.

Lemma operators_app_closed s g :
  closed_run s = true ->
  operators_of (s ++ g) = operators_of s ++ operators_of g.
Proof.
  unfold closed_run. intros Hs.
  destruct (rev s) as [|c l] eqn:E;
    apply (f_equal (@rev ascii)) in E; rewrite rev_involutive in E;
    cbn [rev] in E; subst s.
  - reflexivity.
  - apply negb_true_iff in Hs.
    rewrite !operators_scan_nil.
    rewrite <- app_assoc. cbn [app].
    now apply scan_app_closed.
Qed.

Lemma operators_trailing s g :
  closed_run s = true -> operators_of g = [] ->
  operators_of (s ++ g) = operators_of s.
Proof.
  intros Hs Hg. rewrite operators_app_closed, Hg by assumption.
  apply app_nil_r.
Qed.

Lemma operators_run ds c post :
  all_digits ds -> ds <> [] -> is_op c = true ->
  operators_of (ds ++ c :: post) = (int ds, c) :: operators_of post.
Proof.
  intros Hds Hne Hc. unfold operators_of.
  rewrite (findall_match _ _ _ (match_run ds c post Hds Hne Hc)).
  cbn [map]. now rewrite operator_of_run.
Qed.

(** C7.  For every input string [cigar_to_operators] returns the pairs of
    the left-to-right scan of the specification: one (integer length,
    operator code) pair for every maximal run of digits that one of the
    codes M, I, D, N, S, H, P, =, X immediately follows, every other
    character being skipped.  So a run of digits [ds] that starts the
    string or follows a character that is not a digit, and is followed by
    a code [c], contributes the pair [(int ds, c)] between the pairs of
    what precedes it and the pairs of what follows it; and the result is
    empty for the empty string and, more generally, exactly when no digit
    of the string is immediately followed by an operator code. *)
Theorem cigar_to_operators_spec (cigar : string) :
  cigar_to_operators cigar = spec_operators cigar /\
  (forall pre ds c post,
     list_ascii_of_string cigar = pre ++ ds ++ c :: post ->
     closed_run pre = true -> all_digits ds -> ds <> [] -> is_op c = true ->
     cigar_to_operators cigar
     = operators_of pre ++ (int ds, c) :: operators_of post) /\
  cigar_to_operators EmptyString = [] /\
  (cigar_to_operators cigar = [] <->
   ~ has_operator_run (list_ascii_of_string cigar)).
Proof.
  split; [|split; [|split]].
  - apply operators_scan_nil.
  - intros pre ds c post Hs Hpre Hds Hne Hc.
    unfold cigar_to_operators. rewrite Hs.
    rewrite operators_app_closed by assumption.
    now rewrite operators_run.
  - reflexivity.
  - apply operators_nil_iff.
Qed.

(** C5.  [get_length] returns the sum of the sizes of the parsed operators
    whose code is one of M, I, S, =, X, and appending garbage (a string
    with no operator run of its own) to a CIGAR string that does not end in
    a digit, so in particular right after its last operator, leaves the
    length unchanged. *)
Theorem get_length_spec (cigar garbage : string) :
  closed_run (list_ascii_of_string cigar) = true ->
  cigar_to_operators garbage = [] ->
  get_length cigar = spec_length (cigar_to_operators cigar) /\
  cigar_to_operators (cigar ++ garbage) = cigar_to_operators cigar /\
  get_length (cigar ++ garbage) = get_length cigar.
Proof.
  intros Hc Hg.
  assert (H : cigar_to_operators (cigar ++ garbage) = cigar_to_operators cigar).
  { unfold cigar_to_operators. rewrite list_ascii_of_string_app.
    now apply operators_trailing. }
  split; [apply get_length_sum|].
  split; [assumption|].
  unfold get_length. now rewrite H.
Qed.

Lemma get_length_spec_witness :
  get_length "2M2X4M7D6M2I2M11D7M" = 25 /\
  get_length "2M2X4M7D6M2I2M11D7M12Q" = get_length "2M2X4M7D6M2I2M11D7M".
Proof.
  split; [reflexivity|].
  exact (proj2 (proj2 (get_length_spec "2M2X4M7D6M2I2M11D7M" "12Q"
                         eq_refl eq_refl))).
Defined.

(** ** The index map builder *)

Lemma loop_entries ops : forall st,
  transcript_index_map (fold_left loop_body ops st) =
  transcript_index_map st ++ entries_from (trans_size st) ops.
Proof.
  induction ops as [|[size code] ops IH]; intros st; cbn [fold_left entries_from].
  - now rewrite app_nil_r.
  - rewrite IH. unfold loop_body.
    destruct (Re.one_of _ code); [reflexivity|].
    destruct (Re.one_of _ code);
      [cbn [transcript_index_map trans_size]; now rewrite <- app_assoc|].
    destruct (Re.one_of _ code);
      [cbn [transcript_index_map trans_size]; now rewrite <- app_assoc|].
    reflexivity.
Qed.

Lemma make_index_map_entries cigar :
  make_index_map cigar = entries_from 0 (cigar_to_operators cigar).
Proof. unfold make_index_map, index_loop. now rewrite loop_entries. Qed.

(** The loop is a run of the specification's rules. *)
Lemma loop_runs_spec ops :
  Forall valid_op ops -> forall st,
  index_map_spec (ref_size st) (trans_size st) ops
                 (entries_from (trans_size st) ops)
                 (ref_size (fold_left loop_body ops st))
                 (trans_size (fold_left loop_body ops st)).
Proof.
  induction 1 as [|[size code] ops [_ Hc] _ IH]; intros st.
  - constructor.
  - cbn [snd] in Hc. cbn [fold_left entries_from]. unfold loop_body at 2 4.
    op_cases Hc; eval_codes.
    1-3: apply spec_match; [cbn; tauto | apply (IH (mk_state _ _ _))].
    1-2: apply spec_deletion; [cbn; tauto | apply (IH (mk_state _ _ _))].
    1-2: apply spec_insertion; [cbn; tauto | apply (IH (mk_state _ _ _))].
    1-2: apply spec_inert; [cbn; tauto | apply IH].
Qed.

Ltac code_clash :=
  match goal with
  | H1 : In ?c _, H2 : In ?c _ |- _ =>
      cbn [In] in H1, H2; exfalso;
      repeat match goal with
             | H : _ \/ _ |- _ => destruct H
             | H : False |- _ => destruct H
             end;
      congruence
  end.

(** The rules leave no choice. *)
Lemma index_map_spec_functional r t ops m r' t' :
  index_map_spec r t ops m r' t' ->
  forall m2 r2 t2, index_map_spec r t ops m2 r2 t2 ->
  m = m2 /\ r' = r2 /\ t' = t2.
Proof.
  induction 1 as [r t
                 | r t size code ops m r' t' Hc _ IH
                 | r t size code ops m r' t' Hc _ IH
                 | r t size code ops m r' t' Hc _ IH
                 | r t size code ops m r' t' Hc _ IH];
    intros m2 r2 t2 H2; inversion H2; subst; try code_clash.
  - auto.
  - now apply IH.
  - match goal with H : index_map_spec _ _ _ _ _ _ |- _ =>
      destruct (IH _ _ _ H) as (-> & -> & ->) end. auto.
  - match goal with H : index_map_spec _ _ _ _ _ _ |- _ =>
      destruct (IH _ _ _ H) as (-> & -> & ->) end. auto.
  - now apply IH.
Qed.

(** C4.  [make_index_map] runs the rules of the specification over the
    parsed operators from [ref_size = 0] and [trans_size = 0]: M, = and X
    advance both counters and emit nothing; D and N advance [ref_size] and
    emit [(trans_size - 1, size)]; I and S emit [(trans_size - 1, - size)]
    and then advance [trans_size]; H and P do nothing; and the list it
    returns is the emitted entries in order, no other list being a result
    of the rules. *)
Theorem make_index_map_spec (cigar : string) (m : list entry) (r t : Z) :
  index_map_spec 0 0 (cigar_to_operators cigar) m r t <->
  m = make_index_map cigar /\
  r = ref_size (index_loop (cigar_to_operators cigar)) /\
  t = trans_size (index_loop (cigar_to_operators cigar)).
Proof.
  pose proof (loop_runs_spec _ (operators_valid cigar) loop_init) as Hrun.
  cbn [loop_init ref_size trans_size] in Hrun.
  fold loop_init in Hrun. fold (index_loop (cigar_to_operators cigar)) in Hrun.
  rewrite <- make_index_map_entries in Hrun.
  split.
  - intros H. destruct (index_map_spec_functional _ _ _ _ _ _ H _ _ _ Hrun)
      as (-> & -> & ->). auto.
  - intros (-> & -> & ->). exact Hrun.
Qed.

(** ** Order of the index map *)

Lemma entries_anchor_ge ops :
  Forall valid_op ops -> forall t,
  Forall (fun e => t - 1 <= fst e) (entries_from t ops).
Proof.
  induction 1 as [|[size code] ops [Hs Hc] _ IH]; intros t.
  - constructor.
  - cbn [fst snd] in Hs, Hc. cbn [entries_from].
    assert (Hshift : Forall (fun e => t - 1 <= fst e) (entries_from (t + size) ops)).
    { eapply Forall_impl; [|apply (IH (t + size))]. cbn. intros; lia. }
    op_cases Hc; eval_codes; auto; constructor; auto; cbn; lia.
Qed.

Lemma entries_sorted ops :
  Forall valid_op ops -> forall t,
  StronglySorted anchor_le (entries_from t ops).
Proof.
  intros Hv. pose proof (entries_anchor_ge ops Hv) as Hge. revert Hge.
  induction Hv as [|[size code] ops [Hs Hc] Hv IH]; intros Hge t.
  - constructor.
  - pose proof (entries_anchor_ge ops Hv) as Hge'.
    cbn [fst snd] in Hs, Hc. cbn [entries_from].
    op_cases Hc; eval_codes; auto; constructor; auto;
      (eapply Forall_impl; [|apply Hge']); unfold anchor_le; cbn; intros; lia.
Qed.

(** C6.  The list [make_index_map] returns is sorted by non-decreasing
    anchor: each entry's anchor is at least that of the entry before it
    (and so at least that of every earlier entry). *)
Theorem make_index_map_sorted (cigar : string) :
  Sorted anchor_le (make_index_map cigar) /\
  StronglySorted anchor_le (make_index_map cigar).
Proof.
  assert (H : StronglySorted anchor_le (make_index_map cigar)).
  { rewrite make_index_map_entries.
    apply entries_sorted, operators_valid. }
  split; [now apply StronglySorted_Sorted | assumption].
Qed.

(** ** The translator *)

Lemma sum_mapped_total q im :
  sum (map snd (mapped q im)) = total_adjustment q im.
Proof.
  unfold mapped. induction im as [|[a b] im IH]; [reflexivity|].
  cbn [filter total_adjustment fst]. rewrite Z.gtb_ltb.
  destruct (a <? q); [|assumption].
  cbn [map snd]. now rewrite sum_cons, IH.
Qed.

Lemma last_any_default (l : list entry) : forall y d1 d2,
  last (y :: l) d1 = last (y :: l) d2.
Proof.
  induction l as [|z l IH]; intros y d1 d2; [reflexivity|].
  change (last (y :: z :: l) d1) with (last (z :: l) d1).
  change (last (y :: z :: l) d2) with (last (z :: l) d2).
  apply IH.
Qed.

Lemma last_entry_cons x l :
  last_entry (x :: l) =
  match last_entry l with Some e => Some e | None => Some x end.
Proof.
  destruct l as [|y l]; [reflexivity|].
  unfold last_entry. f_equal.
  change (last (x :: y :: l) x) with (last (y :: l) x).
  apply last_any_default.
Qed.

Lemma mapped_nil q im :
  Forall (fun e => q <= fst e) im -> mapped q im = [].
Proof.
  unfold mapped. induction 1 as [|e im He _ IH]; [reflexivity|].
  cbn [filter]. rewrite Z.gtb_ltb.
  destruct (Z.ltb_spec (fst e) q); [lia | assumption].
Qed.

Lemma mapped_nil_inv q im :
  mapped q im = [] -> Forall (fun e => q <= fst e) im.
Proof.
  unfold mapped. induction im as [|e im IH]; [constructor|].
  cbn [filter]. rewrite Z.gtb_ltb.
  destruct (Z.ltb_spec (fst e) q); [discriminate|].
  intros Hnil. constructor; auto.
Qed.

Lemma mapped_cons_in q e im :
  fst e < q -> mapped q (e :: im) = e :: mapped q im.
Proof.
  intros H. unfold mapped. cbn [filter]. rewrite Z.gtb_ltb.
  destruct (Z.ltb_spec (fst e) q); [reflexivity | lia].
Qed.

Lemma mapped_cons_out q e im :
  q <= fst e -> mapped q (e :: im) = mapped q im.
Proof.
  intros H. unfold mapped. cbn [filter]. rewrite Z.gtb_ltb.
  destruct (Z.ltb_spec (fst e) q); [lia | reflexivity].
Qed.

(** The entry the code takes as [mapped_adjusts[-1]] is the last entry in
    list order among the selected ones. *)
Lemma last_mapped_selected q im e :
  last_entry (mapped q im) = Some e -> last_selected q im e.
Proof.
  induction im as [|x im IH]; [discriminate|].
  destruct (Z.lt_ge_cases (fst x) q) as [Hx | Hx].
  - rewrite mapped_cons_in, last_entry_cons by assumption.
    destruct (last_entry (mapped q im)) as [e'|] eqn:E.
    + intros [= <-]. destruct (IH eq_refl) as (pre & post & -> & He & Hpost).
      now exists (x :: pre), post.
    + intros [= <-]. exists [], im. repeat split; [assumption|].
      apply mapped_nil_inv. now destruct (mapped q im).
  - rewrite mapped_cons_out by assumption. intros H.
    destruct (IH H) as (pre & post & -> & He & Hpost).
    now exists (x :: pre), post.
Qed.

(** What [translate_coordinate] computes on a query in range. *)
Lemma translate_in_range q im rs L :
  0 <= q < L ->
  translate_coordinate q im rs L =
  Some (rs + q + sum (map snd (mapped q im)) + correction q (mapped q im)).
Proof.
  intros Hq. unfold translate_coordinate, correction.
  destruct (Z.geb_spec q L); [lia|].
  destruct (Z.ltb_spec q 0); [lia|]. cbn [orb].
  rewrite !sum_cons. change (sum []) with 0. rewrite Z.add_0_r, Z.add_assoc.
  destruct (last_entry (mapped q im)) as [e|]; [|now rewrite Z.add_0_r].
  destruct (snd e <? 0); [|now rewrite Z.add_0_r].
  destruct (fst e - q - snd e >? 0); [reflexivity | now rewrite Z.add_0_r].
Qed.

Lemma correction_nonneg q sel : 0 <= correction q sel.
Proof.
  unfold correction. destruct (last_entry sel) as [e|]; [|lia].
  destruct (snd e <? 0); [|lia].
  rewrite Z.gtb_ltb. destruct (Z.ltb_spec 0 (fst e - q - snd e)); lia.
Qed.

Lemma correction_none q im :
  (forall e, last_selected q im e -> no_correction q e) ->
  correction q (mapped q im) = 0.
Proof.
  intros H. unfold correction.
  destruct (last_entry (mapped q im)) as [e|] eqn:E; [|reflexivity].
  destruct (H e (last_mapped_selected _ _ _ E)) as [He | He].
  - destruct (Z.ltb_spec (snd e) 0); [lia | reflexivity].
  - destruct (snd e <? 0); [|reflexivity].
    rewrite Z.gtb_ltb. destruct (Z.ltb_spec 0 (fst e - q - snd e)); [lia | reflexivity].
Qed.

Lemma sorted_app_le (l1 l2 : list entry) :
  StronglySorted anchor_le (l1 ++ l2) ->
  forall x y, In x l1 -> In y l2 -> fst x <= fst y.
Proof.
  induction l1 as [|a l1 IH]; intros Hs x y Hx Hy; [destruct Hx|].
  cbn [app] in Hs. inversion Hs as [|? ? Hs' Ha]; subst.
  destruct Hx as [<- | Hx].
  - rewrite Forall_forall in Ha. apply Ha, in_or_app. now right.
  - now apply IH.
Qed.

(** In a sorted index map the last selected entry is one of largest
    anchor among the selected ones. *)
Lemma last_selected_largest q im e :
  StronglySorted anchor_le im ->
  last_selected q im e -> largest_selected q im e.
Proof.
  intros Hs (pre & post & -> & He & Hpost).
  split; [apply in_or_app; right; now left|].
  split; [assumption|].
  intros e' Hin He'. apply in_app_or in Hin. destruct Hin as [Hin | [<- | Hin]].
  - apply (sorted_app_le pre (e :: post) Hs); [assumption | now left].
  - lia.
  - rewrite Forall_forall in Hpost. specialize (Hpost _ Hin). lia.
Qed.

(** C1.  For a query in range and an index map in the order of the data
    model (anchors never decreasing, as [make_index_map] returns it),
    [translate_coordinate] adds to [ref_start + q] the sum of the
    adjustments of exactly the entries anchored strictly before [q], and a
    correction that is never negative.  The correction of step 4 is
    absent, and the result is [ref_start + q] plus that sum, when the
    selected entry of largest anchor has a non-negative adjustment or
    [anchor - q - adjustment <= 0] (of several entries of largest anchor,
    each), or when no entry is selected; the code reads that entry as the
    last selected one in list order, for which the same holds.  With an
    empty index map the result is [ref_start + q]. *)
Theorem translate_coordinate_sum (q : Z) (index_map : list entry) (ref_start L : Z) :
  0 <= q < L ->
  Sorted anchor_le index_map ->
  (exists corr, 0 <= corr /\
     translate_coordinate q index_map ref_start L =
     Some (ref_start + q + total_adjustment q index_map + corr)) /\
  ((forall e, largest_selected q index_map e -> no_correction q e) ->
   translate_coordinate q index_map ref_start L =
   Some (ref_start + q + total_adjustment q index_map)) /\
  ((forall e, last_selected q index_map e -> no_correction q e) ->
   translate_coordinate q index_map ref_start L =
   Some (ref_start + q + total_adjustment q index_map)) /\
  translate_coordinate q [] ref_start L = Some (ref_start + q).
Proof.
  intros Hq Hsorted.
  assert (Hs : StronglySorted anchor_le index_map).
  { apply Sorted_StronglySorted; [|assumption].
    intros x y z. unfold anchor_le. lia. }
  assert (Hlast : (forall e, last_selected q index_map e -> no_correction q e) ->
                  translate_coordinate q index_map ref_start L =
                  Some (ref_start + q + total_adjustment q index_map)).
  { intros H. rewrite translate_in_range, sum_mapped_total by assumption.
    now rewrite correction_none, Z.add_0_r. }
  split; [|split; [|split]].
  - exists (correction q (mapped q index_map)).
    split; [apply correction_nonneg|].
    now rewrite translate_in_range, sum_mapped_total.
  - intros H. apply Hlast. intros e He.
    now apply H, last_selected_largest.
  - exact Hlast.
  - rewrite translate_in_range by assumption. cbn. f_equal. lia.
Qed.

Lemma translate_coordinate_sum_witness :
  translate_coordinate 16 [(7, 7); (13, -2); (17, 11)] 3 25 =
  Some (3 + 16 + total_adjustment 16 [(7, 7); (13, -2); (17, 11)]).
Proof.
  destruct (translate_coordinate_sum 16 [(7, 7); (13, -2); (17, 11)] 3 25)
    as (_ & H & _); [lia | repeat constructor; unfold anchor_le; cbn; lia |].
  apply H. clear H.
  intros e (Hin & _).
  destruct Hin as [<- | [<- | [<- | []]]].
  - left. cbn. lia.
  - right. cbn. lia.
  - left. cbn. lia.
Defined.

(** The order of the index map is needed: on [[(5, 3); (1, -10)]], which is
    not sorted and which [make_index_map] never returns, the selected
    entry of largest anchor at query 6 is (5, 3), while the code corrects
    for the last entry of the list, (1, -10), and returns 4 and not
    0 + 6 + (3 - 10) = -1. *)
Lemma translate_unsorted_map :
  0 <= 6 < 7 /\
  (forall e, largest_selected 6 [(5, 3); (1, -10)] e -> no_correction 6 e) /\
  translate_coordinate 6 [(5, 3); (1, -10)] 0 7 = Some 4 /\
  0 + 6 + total_adjustment 6 [(5, 3); (1, -10)] = -1.
Proof.
  split; [lia|]. split; [|split; reflexivity].
  intros e (Hin & He & Hmax).
  assert (H5 : fst (5, 3) <= fst e).
  { apply Hmax; [now left | cbn; lia]. }
  destruct Hin as [<- | [<- | []]]; cbn in *.
  - left. cbn. lia.
  - lia.
Qed.

(** C3.  [translate_coordinate] returns [None] exactly when the query is
    negative or not below the transcript length, so at [-1] and at the
    length itself, and an integer for every query in range: it has no
    other outcome. *)
Theorem translate_coordinate_not_found (q : Z) (index_map : list entry) (ref_start L : Z) :
  (translate_coordinate q index_map ref_start L = None <-> q < 0 \/ q >= L) /\
  (0 <= q < L <-> exists r, translate_coordinate q index_map ref_start L = Some r) /\
  translate_coordinate (-1) index_map ref_start L = None /\
  translate_coordinate L index_map ref_start L = None.
Proof.
  assert (Hout : forall q', q' < 0 \/ q' >= L ->
                 translate_coordinate q' index_map ref_start L = None).
  { intros q' H. unfold translate_coordinate.
    destruct (Z.geb_spec q' L); [reflexivity|].
    destruct (Z.ltb_spec q' 0); [reflexivity | lia]. }
  split; [|split; [|split]].
  - split; [|apply Hout].
    intros H. destruct (Z.lt_ge_cases q 0); [now left|].
    destruct (Z.lt_ge_cases q L); [|right; lia].
    rewrite translate_in_range in H by lia. discriminate.
  - split.
    + intros H. rewrite translate_in_range by assumption. eauto.
    + intros [r H]. destruct (Z.lt_ge_cases q 0) as [H0 | H0].
      * rewrite Hout in H by now left. discriminate.
      * destruct (Z.lt_ge_cases q L); [lia|].
        rewrite Hout in H by (right; lia). discriminate.
  - apply Hout. left. lia.
  - apply Hout. right. lia.
Qed.

(** C8.  The worked examples: for [8M7D6M2I2M11D7M] with [ref_start = 3]
    the length is 25, the index map is [(7, 7); (13, -2); (17, 11)] and the
    queries 0, 13, 14, 15, 16, 24 translate to 3, 23, 23, 23, 24, 43; for
    [2M2X2I2M] the index map is the single entry (3, -2). *)
Theorem worked_examples :
  get_length "8M7D6M2I2M11D7M" = 25 /\
  make_index_map "8M7D6M2I2M11D7M" = [(7, 7); (13, -2); (17, 11)] /\
  map (fun q => translate_coordinate q (make_index_map "8M7D6M2I2M11D7M") 3
                  (get_length "8M7D6M2I2M11D7M"))
      [0; 13; 14; 15; 16; 24]
  = [Some 3; Some 23; Some 23; Some 23; Some 24; Some 43] /\
  make_index_map "2M2X2I2M" = [(3, -2)].
Proof. repeat split; vm_compute; reflexivity. Qed.

(** ** The translator on the index map of a CIGAR string *)

Lemma translate_offset q im rs L :
  0 <= q < L -> translate_coordinate q im rs L = Some (rs + offset q im).
Proof.
  intros H. rewrite translate_in_range by assumption.
  unfold offset. f_equal. lia.
Qed.

Lemma offset_none q im : mapped q im = [] -> offset q im = q.
Proof. unfold offset. intros ->. cbn. lia. Qed.

(** An entry before the query that step 4 does not correct for adds its
    adjustment. *)
Lemma offset_cons q e im :
  fst e < q -> no_correction q e ->
  offset q (e :: im) = snd e + offset q im.
Proof.
  intros He Hno. unfold offset, correction.
  rewrite mapped_cons_in by assumption. cbn [map].
  rewrite sum_cons, last_entry_cons.
  destruct (last_entry (mapped q im)) as [e'|]; [lia|].
  destruct Hno as [Hno | Hno].
  - destruct (Z.ltb_spec (snd e) 0); lia.
  - destruct (snd e <? 0); [|lia].
    rewrite Z.gtb_ltb. destruct (Z.ltb_spec 0 (fst e - q - snd e)); lia.
Qed.

(** A query inside the insertion of the only selected entry gets the
    anchor of that entry. *)
Lemma offset_inside q e im :
  fst e < q -> mapped q im = [] -> snd e < 0 -> 0 <= fst e - q - snd e ->
  offset q (e :: im) = fst e.
Proof.
  intros He Hnil Hneg Hin. unfold offset, correction.
  rewrite mapped_cons_in, Hnil by assumption. cbn [map last_entry last].
  rewrite sum_cons. change (sum []) with 0.
  destruct (Z.ltb_spec (snd e) 0); [|lia].
  rewrite Z.gtb_ltb. destruct (Z.ltb_spec 0 (fst e - q - snd e)); lia.
Qed.

Lemma entries_not_before ops t q :
  Forall valid_op ops -> q <= t - 1 -> mapped q (entries_from t ops) = [].
Proof.
  intros Hv Hq. apply mapped_nil.
  eapply Forall_impl; [|apply (entries_anchor_ge ops Hv t)].
  cbn. intros; lia.
Qed.

(** The coordinate computed from the index map is the left-aligned
    position read off the operators. *)
Lemma offset_aligned ops :
  Forall valid_op ops -> forall t q, t <= q ->
  offset q (entries_from t ops) = aligned t ops q.
Proof.
  induction 1 as [|[size code] ops [Hs Hc] Hv IH]; intros t q Hq.
  - now apply offset_none.
  - pose proof (fun t q => entries_not_before ops t q Hv) as Hnb.
    cbn [fst snd] in Hs, Hc. cbn [entries_from aligned].
    op_cases Hc; eval_codes.
    1-3: destruct (Z.ltb_spec q (t + size));
         [apply offset_none, Hnb; lia | apply IH; lia].
    1-2: rewrite offset_cons by (cbn; try left; cbn; lia);
         cbn [snd]; now rewrite IH.
    1-2: destruct (Z.ltb_spec q (t + size));
         [ rewrite offset_inside by (try apply Hnb; cbn; lia); reflexivity
         | rewrite offset_cons by (cbn; try right; cbn; lia);
           cbn [snd]; rewrite IH by lia; reflexivity ].
    1-2: now apply IH.
Qed.

Lemma spec_length_nonneg ops : Forall valid_op ops -> 0 <= spec_length ops.
Proof.
  induction 1 as [|[size code] ops [Hs Hc] _ IH]; cbn [spec_length]; [lia|].
  cbn [fst] in Hs. destruct (Re.one_of _ code); lia.
Qed.

Lemma aligned_lower ops :
  Forall valid_op ops -> forall t q, t <= q -> t - 1 <= aligned t ops q.
Proof.
  induction 1 as [|[size code] ops [Hs Hc] _ IH]; intros t q Hq;
    cbn [aligned]; [lia|].
  cbn [fst snd] in Hs, Hc.
  op_cases Hc; eval_codes.
  1-3: destruct (Z.ltb_spec q (t + size));
       [lia | specialize (IH (t + size) q); lia].
  1-2: specialize (IH t q); lia.
  1-2: destruct (Z.ltb_spec q (t + size));
       [lia | specialize (IH (t + size) q); lia].
  1-2: specialize (IH t q); lia.
Qed.

Lemma aligned_monotone ops :
  Forall valid_op ops -> forall t q1 q2, t <= q1 -> q1 <= q2 ->
  aligned t ops q1 <= aligned t ops q2.
Proof.
  induction 1 as [|[size code] ops [Hs Hc] Hv IH]; intros t q1 q2 H1 H2;
    cbn [aligned]; [lia|].
  cbn [fst snd] in Hs, Hc.
  pose proof (aligned_lower ops Hv (t + size) q2) as Hlow.
  op_cases Hc; eval_codes.
  1-3: destruct (Z.ltb_spec q1 (t + size)), (Z.ltb_spec q2 (t + size));
       try lia; apply IH; lia.
  1-2: specialize (IH t q1 q2); lia.
  1-2: destruct (Z.ltb_spec q1 (t + size)), (Z.ltb_spec q2 (t + size));
       try lia; specialize (IH (t + size) q1 q2); lia.
  1-2: apply IH; lia.
Qed.

Lemma translate_aligned cigar rs q :
  0 <= q < get_length cigar ->
  translate_coordinate q (make_index_map cigar) rs (get_length cigar) =
  Some (rs + aligned 0 (cigar_to_operators cigar) q).
Proof.
  intros Hq. rewrite translate_offset by assumption.
  rewrite make_index_map_entries.
  rewrite offset_aligned by (apply operators_valid || lia). reflexivity.
Qed.

(** C9.  For every CIGAR string, whatever its first operator, the
    translated coordinate does not decrease with the query: two queries
    [q1 <= q2] in range translate to coordinates [r1 <= r2]. *)
Theorem translate_monotone (cigar : string) (ref_start q1 q2 : Z) :
  0 <= q1 -> q1 <= q2 -> q2 < get_length cigar ->
  exists r1 r2,
    translate_coordinate q1 (make_index_map cigar) ref_start (get_length cigar)
    = Some r1 /\
    translate_coordinate q2 (make_index_map cigar) ref_start (get_length cigar)
    = Some r2 /\
    r1 <= r2.
Proof.
  intros H1 H12 H2.
  exists (ref_start + aligned 0 (cigar_to_operators cigar) q1),
         (ref_start + aligned 0 (cigar_to_operators cigar) q2).
  rewrite !translate_aligned by lia.
  repeat split.
  pose proof (aligned_monotone _ (operators_valid cigar) 0 q1 q2 H1 H12). lia.
Qed.

Lemma translate_monotone_witness :
  exists r1 r2,
    translate_coordinate 13 (make_index_map "8M7D6M2I2M11D7M") 3
                         (get_length "8M7D6M2I2M11D7M") = Some r1 /\
    translate_coordinate 16 (make_index_map "8M7D6M2I2M11D7M") 3
                         (get_length "8M7D6M2I2M11D7M") = Some r2 /\
    r1 <= r2.
Proof.
  apply (translate_monotone "8M7D6M2I2M11D7M" 3 13 16);
    [lia | lia | vm_compute; reflexivity].
Defined.

(** C10.  When the first parsed operator is a soft clip S of length
    [L >= 1], the first entry of the index map is anchored at -1, and every
    query inside the clip, [0 <= q <= L - 1], translates to
    [ref_start - 1]. *)
Theorem leading_soft_clip (cigar : string) (L : Z) (rest : list operator) :
  cigar_to_operators cigar = (L, "S"%char) :: rest ->
  1 <= L ->
  (exists tl, make_index_map cigar = (-1, - L) :: tl) /\
  forall ref_start q,
    0 <= q <= L - 1 ->
    translate_coordinate q (make_index_map cigar) ref_start (get_length cigar)
    = Some (ref_start - 1).
Proof.
  intros Hops HL. split.
  - rewrite make_index_map_entries, Hops. cbn [entries_from]. eval_codes.
    eauto.
  - intros rs q Hq.
    pose proof (operators_valid cigar) as Hv. rewrite Hops in Hv.
    inversion Hv as [|? ? _ Hrest]; subst.
    assert (Hlen : get_length cigar = L + spec_length rest).
    { rewrite get_length_sum, Hops. cbn [spec_length]. now eval_codes. }
    pose proof (spec_length_nonneg _ Hrest).
    rewrite translate_aligned by lia.
    rewrite Hops. cbn [aligned]. eval_codes.
    destruct (Z.ltb_spec q (0 + L)); [f_equal; lia | lia].
Qed.

Lemma leading_soft_clip_witness :
  translate_coordinate 1 (make_index_map "2S3M") 3 (get_length "2S3M") = Some (3 - 1).
Proof.
  apply (proj2 (leading_soft_clip "2S3M" 2 [(3, "M"%char)] eq_refl ltac:(lia)) 3 1).
  lia.
Defined.

(** ** Queries inside an insertion *)

(** An insertion ends inside the transcript. *)
Lemma entries_within ops :
  Forall valid_op ops -> forall t a d,
  In (a, d) (entries_from t ops) -> d <= 0 ->
  a - d <= t + spec_length ops - 1.
Proof.
  induction 1 as [|[size code] ops [Hs Hc] Hv IH]; intros t a d Hin Hd;
    [destruct Hin|].
  cbn [fst snd] in Hs, Hc. cbn [entries_from spec_length] in *.
  pose proof (spec_length_nonneg ops Hv) as Hlen.
  revert Hin. op_cases Hc; eval_codes; intros Hin.
  1-3: specialize (IH _ _ _ Hin Hd); lia.
  1-2: destruct Hin as [[= <- <-] | Hin]; [lia | exact (IH _ _ _ Hin Hd)].
  1-2: destruct Hin as [[= <- <-] | Hin];
       [lia | specialize (IH _ _ _ Hin Hd); lia].
  1-2: exact (IH _ _ _ Hin Hd).
Qed.

Lemma entries_anchor_in ops t a d :
  Forall valid_op ops -> In (a, d) (entries_from t ops) -> t - 1 <= a.
Proof.
  intros Hv Hin. pose proof (entries_anchor_ge ops Hv t) as H.
  rewrite Forall_forall in H. exact (H _ Hin).
Qed.

(** A query inside an insertion anchored just before the first operator,
    with no deletion anchored there, gets the anchor. *)
Lemma aligned_at_anchor ops :
  Forall valid_op ops -> forall t L q,
  In (t - 1, - L) (entries_from t ops) -> 0 < L -> t - 1 < q <= t - 1 + L ->
  (forall d, In (t - 1, d) (entries_from t ops) -> d <= 0) ->
  aligned t ops q = t - 1.
Proof.
  induction 1 as [|[size code] ops [Hs Hc] Hv IH]; intros t L q Hin HL Hq Hno;
    [destruct Hin|].
  cbn [fst snd] in Hs, Hc. cbn [entries_from aligned] in *.
  revert Hin Hno. op_cases Hc; eval_codes; intros Hin Hno.
  1-3: pose proof (entries_anchor_in _ _ _ _ Hv Hin);
       assert (size = 0) as -> by lia; rewrite Z.add_0_r in *;
       destruct (Z.ltb_spec q t); [lia | now apply (IH t L)].
  1-2: pose proof (Hno size (or_introl eq_refl));
       assert (size = 0) as -> by lia;
       destruct Hin as [[=] | Hin]; [lia|];
       rewrite (IH t L q) by (auto; intros; apply Hno; now right); lia.
  1-2: destruct Hin as [[= Heq] | Hin];
       [ destruct (Z.ltb_spec q (t + size)); lia
       | pose proof (entries_anchor_in _ _ _ _ Hv Hin);
         assert (size = 0) as -> by lia; rewrite Z.add_0_r in *;
         destruct (Z.ltb_spec q t); [lia|];
         rewrite (IH t L q) by (auto; intros; apply Hno; now right); lia ].
  1-2: now apply (IH t L).
Qed.

(** A query inside an insertion is aligned with the anchor of the
    insertion, when the anchor is a transcript index and no deletion is
    anchored there. *)
Lemma aligned_insertion ops :
  Forall valid_op ops -> forall t a L q,
  t <= a ->
  In (a, - L) (entries_from t ops) -> 0 < L -> a < q <= a + L ->
  (forall d, In (a, d) (entries_from t ops) -> d <= 0) ->
  aligned t ops q = aligned t ops a.
Proof.
  induction 1 as [|[size code] ops [Hs Hc] Hv IH]; intros t a L q Ht Hin HL Hq Hno;
    [destruct Hin|].
  cbn [fst snd] in Hs, Hc. cbn [entries_from aligned] in *.
  revert Hin Hno. op_cases Hc; eval_codes; intros Hin Hno.
  1-3: pose proof (entries_anchor_in _ _ _ _ Hv Hin);
       destruct (Z.ltb_spec q (t + size)); [lia|];
       destruct (Z.ltb_spec a (t + size));
       [ assert (a = t + size - 1) as -> by lia;
         now apply (aligned_at_anchor ops Hv (t + size) L)
       | now apply (IH (t + size) a L) ].
  1-2: destruct Hin as [[=] | Hin]; [lia|];
       rewrite (IH t a L q) by (auto; intros; apply Hno; now right);
       reflexivity.
  1-2: destruct Hin as [[=] | Hin]; [lia|];
       pose proof (entries_anchor_in _ _ _ _ Hv Hin);
       destruct (Z.ltb_spec q (t + size)); [lia|];
       destruct (Z.ltb_spec a (t + size));
       [ assert (a = t + size - 1) as Ha by lia; rewrite Ha in *;
         rewrite (aligned_at_anchor ops Hv (t + size) L q)
           by (auto; intros; apply Hno; now right); lia
       | rewrite (IH (t + size) a L q)
           by (auto; intros; apply Hno; now right); reflexivity ].
  1-2: now apply (IH t a L).
Qed.

(** C2, amended.  For every CIGAR string and every entry [(a, - L)] of its
    index map with [L > 0] whose anchor [a] is a transcript index
    ([0 <= a]) and at which no deletion is anchored, every query
    [a < q <= a + L] inside the insertion is in range and translates to
    the coordinate the boundary query [a] translates to. *)
Theorem translate_inside_insertion (cigar : string) (ref_start a L q : Z) :
  In (a, - L) (make_index_map cigar) -> 0 < L ->
  a < q <= a + L ->
  0 <= a ->
  (forall d, In (a, d) (make_index_map cigar) -> d <= 0) ->
  exists r,
    translate_coordinate q (make_index_map cigar) ref_start (get_length cigar)
    = Some r /\
    translate_coordinate a (make_index_map cigar) ref_start (get_length cigar)
    = Some r.
Proof.
  intros Hin HL Hq Ha Hno.
  pose proof (operators_valid cigar) as Hv.
  rewrite make_index_map_entries in Hin, Hno.
  pose proof (entries_within _ Hv 0 a (- L) Hin ltac:(lia)) as Hend.
  rewrite <- get_length_sum in Hend.
  exists (ref_start + aligned 0 (cigar_to_operators cigar) a).
  rewrite !translate_aligned by lia.
  split; [|reflexivity].
  now rewrite (aligned_insertion _ Hv 0 a L q).
Qed.

Lemma translate_inside_insertion_witness :
  exists r,
    translate_coordinate 14 (make_index_map "8M7D6M2I2M11D7M") 3
                         (get_length "8M7D6M2I2M11D7M") = Some r /\
    translate_coordinate 13 (make_index_map "8M7D6M2I2M11D7M") 3
                         (get_length "8M7D6M2I2M11D7M") = Some r.
Proof.
  apply (translate_inside_insertion "8M7D6M2I2M11D7M" 3 13 2 14);
    [vm_compute; tauto | lia | lia | lia |].
  vm_compute. intros d [H | [H | [H | []]]]; inversion H. discriminate.
Defined.

(** C2 as stated fails in two ways.  A leading soft clip is anchored at
    -1, which is no query: query 0 of [2S3M] translates to a coordinate and
    the boundary -1 to [None].  And a deletion anchored where the insertion
    is shifts the queries inside the insertion, not the boundary: in
    [4M3D2I2M] query 4 translates to 6 and the boundary 3 to 3. *)
Lemma insertion_boundary_counterexample :
  (cigar_to_operators "2S3M" = [(2, "S"%char); (3, "M"%char)] /\
   In (-1, - 2) (make_index_map "2S3M") /\
   -1 < 0 <= -1 + 2 /\ 0 <= 0 < get_length "2S3M" /\
   translate_coordinate 0 (make_index_map "2S3M") 3 (get_length "2S3M") = Some 2 /\
   translate_coordinate (-1) (make_index_map "2S3M") 3 (get_length "2S3M") = None)
  /\
  (cigar_to_operators "4M3D2I2M"
   = [(4, "M"%char); (3, "D"%char); (2, "I"%char); (2, "M"%char)] /\
   In (3, - 2) (make_index_map "4M3D2I2M") /\
   3 < 4 <= 3 + 2 /\ 0 <= 4 < get_length "4M3D2I2M" /\
   translate_coordinate 4 (make_index_map "4M3D2I2M") 0 (get_length "4M3D2I2M") = Some 6 /\
   translate_coordinate 3 (make_index_map "4M3D2I2M") 0 (get_length "4M3D2I2M") = Some 3).
Proof.
  split.
  - split; [reflexivity|]. split; [vm_compute; tauto|].
    split; [lia|]. split; [vm_compute; split; congruence|].
    split; reflexivity.
  - split; [reflexivity|]. split; [vm_compute; tauto|].
    split; [lia|]. split; [vm_compute; split; congruence|].
    split; reflexivity.
Qed.

(** ** The doctests of the module *)

Example doctest_cigar_to_operators :
  cigar_to_operators "8M7D6M2I2M11D7M"
  = [(8, "M"); (7, "D"); (6, "M"); (2, "I"); (2, "M"); (11, "D"); (7, "M")]%char /\
  cigar_to_operators "X8M7D6M2I2M11D7M12" = cigar_to_operators "8M7D6M2I2M11D7M" /\
  cigar_to_operators "8M7D6M2I2M11D7M12Q" = cigar_to_operators "8M7D6M2I2M11D7M".
Proof. repeat split; vm_compute; reflexivity. Qed.

Example doctest_get_length :
  get_length "2M2X4M7D6M2I2M11D7M" = 25 /\
  get_length "2M2X4M7D6M2I2M11D7M12Q" = 25.
Proof. split; vm_compute; reflexivity. Qed.

Example doctest_make_index_map :
  make_index_map "2M2X4M7D6M2I2M11D7M" = [(7, 7); (13, -2); (17, 11)].
Proof. vm_compute; reflexivity. Qed.

Example doctest_translate_coordinate :
  translate_coordinate 25 [(7, 7); (13, -2); (17, 11)] 3 25 = None.
Proof. reflexivity. Qed.

(** * Further properties of the translator *)

(** ** The counters of the builder *)

Lemma loop_counters ops :
  Forall valid_op ops -> forall st,
  trans_size (fold_left loop_body ops st) = trans_size st + spec_length ops /\
  ref_size (fold_left loop_body ops st) = ref_size st + ref_length ops.
Proof.
  induction 1 as [|[size code] ops [_ Hc] _ IH]; intros st.
  - cbn. lia.
  - cbn [snd] in Hc. cbn [fold_left spec_length ref_length].
    destruct (IH (loop_body st (size, code))) as [-> ->].
    unfold loop_body.
    op_cases Hc; eval_codes; cbn [trans_size ref_size]; lia.
Qed.

Lemma index_loop_counters ops :
  Forall valid_op ops ->
  trans_size (index_loop ops) = spec_length ops /\
  ref_size (index_loop ops) = ref_length ops.
Proof.
  intros Hv. destruct (loop_counters ops Hv loop_init) as [Ht Hr].
  unfold index_loop. rewrite Ht, Hr. cbn. lia.
Qed.

Lemma spec_length_app pre post :
  spec_length (pre ++ post) = spec_length pre + spec_length post.
Proof.
  induction pre as [|[size code] pre IH]; [reflexivity|].
  cbn [app spec_length]. destruct (Re.one_of _ code); lia.
Qed.

Lemma ref_length_nonneg ops : Forall valid_op ops -> 0 <= ref_length ops.
Proof.
  induction 1 as [|[size code] ops [Hs Hc] _ IH]; cbn [ref_length]; [lia|].
  cbn [fst] in Hs. destruct (Re.one_of _ code); lia.
Qed.

(** Past a prefix of the operators, the position is the position in what
    follows, moved by the reference bases of the prefix. *)
Lemma aligned_app pre :
  Forall valid_op pre -> forall t rest q,
  t + spec_length pre <= q ->
  aligned t (pre ++ rest) q =
  ref_length pre - spec_length pre + aligned (t + spec_length pre) rest q.
Proof.
  induction 1 as [|[size code] pre [Hs Hc] Hv IH]; intros t rest q Hq.
  - cbn. now rewrite Z.add_0_r.
  - cbn [fst snd] in Hs, Hc. cbn [app aligned spec_length ref_length] in *.
    pose proof (spec_length_nonneg pre Hv) as Hlen.
    revert Hq. op_cases Hc; eval_codes; intros Hq.
    all: replace (t + (size + spec_length pre))
           with (t + size + spec_length pre) by lia.
    1-3: destruct (Z.ltb_spec q (t + size)); [lia|];
         rewrite IH by lia; lia.
    1-2: rewrite IH by lia; lia.
    1-2: destruct (Z.ltb_spec q (t + size)); [lia|];
         rewrite IH by lia; lia.
    1-2: now rewrite IH by lia.
Qed.

Lemma aligned_upper ops :
  Forall valid_op ops -> forall t q,
  t <= q < t + spec_length ops -> aligned t ops q <= t + ref_length ops - 1.
Proof.
  induction 1 as [|[size code] ops [Hs Hc] Hv IH]; intros t q Hq.
  - cbn in Hq. lia.
  - cbn [fst snd] in Hs, Hc. cbn [aligned spec_length ref_length] in *.
    pose proof (ref_length_nonneg ops Hv) as Hlen.
    revert Hq. op_cases Hc; eval_codes; intros Hq.
    1-3: destruct (Z.ltb_spec q (t + size));
         [lia | specialize (IH (t + size) q); lia].
    1-2: specialize (IH t q); lia.
    1-2: destruct (Z.ltb_spec q (t + size));
         [lia | specialize (IH (t + size) q); lia].
    1-2: specialize (IH t q); lia.
Qed.

(** X1.  A query inside a match operator (M, = or X) translates to
    [ref_start], plus the reference bases the operators before it consume
    (the [ref_size] the builder has reached there), plus the offset of the
    query in the operator. *)
Theorem translate_in_match (cigar : string) (pre post : list operator)
        (size : Z) (code : ascii) (ref_start q : Z) :
  cigar_to_operators cigar = pre ++ (size, code) :: post ->
  In code ["M"; "="; "X"]%char ->
  trans_size (index_loop pre) <= q < trans_size (index_loop pre) + size ->
  translate_coordinate q (make_index_map cigar) ref_start (get_length cigar)
  = Some (ref_start + ref_size (index_loop pre) + (q - trans_size (index_loop pre))).
Proof.
  intros Hops Hc Hq.
  pose proof (operators_valid cigar) as Hv. rewrite Hops in Hv.
  apply Forall_app in Hv. destruct Hv as [Hpre Hrest].
  inversion Hrest as [|? ? _ Hpost]; subst.
  destruct (index_loop_counters pre Hpre) as [Ht Hr]. rewrite Ht, Hr in *.
  pose proof (spec_length_nonneg _ Hpre). pose proof (spec_length_nonneg _ Hpost).
  assert (Hlen : get_length cigar
                 = spec_length pre + (size + spec_length post)).
  { rewrite get_length_sum, Hops, spec_length_app. cbn [spec_length].
    cbn [In] in Hc. destruct Hc as [<- | [<- | [<- | []]]]; now eval_codes. }
  rewrite translate_aligned by lia. rewrite Hops.
  rewrite aligned_app by (assumption || lia). cbn [aligned].
  cbn [In] in Hc. destruct Hc as [<- | [<- | [<- | []]]]; eval_codes;
    (destruct (Z.ltb_spec q (0 + spec_length pre + size)); [f_equal; lia | lia]).
Qed.

Lemma translate_in_match_witness :
  translate_coordinate 20 (make_index_map "8M7D6M2I2M11D7M") 3
                       (get_length "8M7D6M2I2M11D7M")
  = Some (3 + 34 + (20 - 18)).
Proof.
  apply (translate_in_match "8M7D6M2I2M11D7M"
           [(8, "M"); (7, "D"); (6, "M"); (2, "I"); (2, "M"); (11, "D")]%char
           [] 7 "M"%char 3 20);
    [reflexivity | now left | vm_compute; split; congruence].
Defined.

(** X2.  A query inside an insertion or soft clip (I or S) translates to
    the reference position just before the insertion: [ref_start] plus the
    reference bases consumed before it, minus one. *)
Theorem translate_in_insertion (cigar : string) (pre post : list operator)
        (size : Z) (code : ascii) (ref_start q : Z) :
  cigar_to_operators cigar = pre ++ (size, code) :: post ->
  In code ["I"; "S"]%char ->
  trans_size (index_loop pre) <= q < trans_size (index_loop pre) + size ->
  translate_coordinate q (make_index_map cigar) ref_start (get_length cigar)
  = Some (ref_start + ref_size (index_loop pre) - 1).
Proof.
  intros Hops Hc Hq.
  pose proof (operators_valid cigar) as Hv. rewrite Hops in Hv.
  apply Forall_app in Hv. destruct Hv as [Hpre Hrest].
  inversion Hrest as [|? ? _ Hpost]; subst.
  destruct (index_loop_counters pre Hpre) as [Ht Hr]. rewrite Ht, Hr in *.
  pose proof (spec_length_nonneg _ Hpre). pose proof (spec_length_nonneg _ Hpost).
  assert (Hlen : get_length cigar
                 = spec_length pre + (size + spec_length post)).
  { rewrite get_length_sum, Hops, spec_length_app. cbn [spec_length].
    cbn [In] in Hc. destruct Hc as [<- | [<- | []]]; now eval_codes. }
  rewrite translate_aligned by lia. rewrite Hops.
  rewrite aligned_app by (assumption || lia). cbn [aligned].
  cbn [In] in Hc. destruct Hc as [<- | [<- | []]]; eval_codes;
    (destruct (Z.ltb_spec q (0 + spec_length pre + size)); [f_equal; lia | lia]).
Qed.

Lemma translate_in_insertion_witness :
  translate_coordinate 5 (make_index_map "4M3D2I2M") 0 (get_length "4M3D2I2M")
  = Some (0 + 7 - 1).
Proof.
  apply (translate_in_insertion "4M3D2I2M" [(4, "M"); (3, "D")]%char
           [(2, "M"%char)] 2 "I"%char 0 5);
    [reflexivity | now left | vm_compute; split; congruence].
Defined.

(** X3.  The coordinate of a query in range lies in the reference span of
    the alignment: it is at least [ref_start - 1] and at most [ref_start]
    plus the [ref_size] the builder ends with, minus one. *)
Theorem translate_within_reference (cigar : string) (ref_start q : Z) :
  0 <= q < get_length cigar ->
  exists r,
    translate_coordinate q (make_index_map cigar) ref_start (get_length cigar)
    = Some r /\
    ref_start - 1 <= r <=
    ref_start + ref_size (index_loop (cigar_to_operators cigar)) - 1.
Proof.
  intros Hq. pose proof (operators_valid cigar) as Hv.
  exists (ref_start + aligned 0 (cigar_to_operators cigar) q).
  split; [now apply translate_aligned|].
  destruct (index_loop_counters _ Hv) as [_ ->].
  pose proof (aligned_lower _ Hv 0 q ltac:(lia)).
  rewrite get_length_sum in Hq.
  pose proof (aligned_upper _ Hv 0 q ltac:(lia)). lia.
Qed.

Lemma translate_within_reference_witness :
  exists r,
    translate_coordinate 24 (make_index_map "8M7D6M2I2M11D7M") 3
                         (get_length "8M7D6M2I2M11D7M") = Some r /\
    3 - 1 <= r <=
    3 + ref_size (index_loop (cigar_to_operators "8M7D6M2I2M11D7M")) - 1.
Proof.
  apply (translate_within_reference "8M7D6M2I2M11D7M" 3 24).
  vm_compute. split; congruence.
Defined.

Lemma entries_anchor_le ops :
  Forall valid_op ops -> forall t a d,
  In (a, d) (entries_from t ops) -> a <= t + spec_length ops - 1.
Proof.
  induction 1 as [|[size code] ops [Hs Hc] Hv IH]; intros t a d Hin;
    [destruct Hin|].
  cbn [fst snd] in Hs, Hc. cbn [entries_from spec_length] in *.
  pose proof (spec_length_nonneg ops Hv) as Hlen.
  revert Hin. op_cases Hc; eval_codes; intros Hin.
  1-3: specialize (IH _ _ _ Hin); lia.
  1-2: destruct Hin as [[= <- <-] | Hin]; [lia | exact (IH _ _ _ Hin)].
  1-2: destruct Hin as [[= <- <-] | Hin];
       [lia | specialize (IH _ _ _ Hin); lia].
  1-2: exact (IH _ _ _ Hin).
Qed.

Lemma entries_length ops : forall t,
  List.length (entries_from t ops) = List.length (filter is_indel ops).
Proof.
  induction ops as [|[size code] ops IH]; intros t; [reflexivity|].
  cbn [entries_from filter]. unfold is_indel at 1. cbn [snd].
  destruct code as [[] [] [] [] [] [] [] []]; eval_codes; cbn [List.length];
    now rewrite IH.
Qed.

(** X4.  The index map has one entry for each D, N, I or S operator and
    none for the others; each anchor is a transcript index or -1; and the
    [trans_size] the builder ends with is the length [get_length]
    computes on its own. *)
Theorem index_map_shape (cigar : string) :
  List.length (make_index_map cigar)
  = List.length (filter is_indel (cigar_to_operators cigar)) /\
  Forall (fun e => -1 <= fst e <= get_length cigar - 1) (make_index_map cigar) /\
  trans_size (index_loop (cigar_to_operators cigar)) = get_length cigar.
Proof.
  pose proof (operators_valid cigar) as Hv.
  split; [|split].
  - rewrite make_index_map_entries. apply entries_length.
  - rewrite make_index_map_entries, get_length_sum.
    apply Forall_forall. intros [a d] Hin. cbn [fst].
    pose proof (entries_anchor_in _ _ _ _ Hv Hin).
    split; [lia|].
    destruct (Z.le_gt_cases d 0) as [Hd | Hd].
    + pose proof (entries_within _ Hv _ _ _ Hin Hd). lia.
    + pose proof (entries_anchor_le _ Hv _ _ _ Hin). lia.
  - rewrite get_length_sum. now apply index_loop_counters.
Qed.

(** * The batch run *)

Import Batch.

Lemma dict_get_set_same {V : Type} (d : dict V) k v :
  Dict.get (Dict.set d k v) k = Some v.
Proof.
  induction d as [|[k' v'] d IH]; cbn.
  - now rewrite String.eqb_refl.
  - destruct (String.eqb k' k) eqn:E; cbn; now rewrite E.
Qed.

Lemma dict_get_set_other {V : Type} (d : dict V) k v k' :
  k <> k' -> Dict.get (Dict.set d k v) k' = Dict.get d k'.
Proof.
  intros Hk. induction d as [|[k0 v0] d IH]; cbn.
  - apply String.eqb_neq in Hk. now rewrite Hk.
  - destruct (String.eqb_spec k0 k) as [-> | Hk0]; cbn.
    + apply String.eqb_neq in Hk. now rewrite Hk.
    + now rewrite IH.
Qed.

Lemma dict_get_in {V : Type} (d : dict V) k v :
  Dict.get d k = Some v -> In (k, v) d.
Proof.
  induction d as [|[k' v'] d IH]; cbn; [discriminate|].
  destruct (String.eqb_spec k' k) as [-> | Hk].
  - intros [= ->]. now left.
  - intros H. right. now apply IH.
Qed.

Lemma make_transcript_inv py_int t tr :
  make_transcript py_int t = inr tr ->
  nth_error t 0 = Some (name tr) /\
  transcript_length tr = get_length (cigar tr) /\
  index_map tr = make_index_map (cigar tr).
Proof.
  unfold make_transcript, subscript, int_of.
  destruct (nth_error t 0) as [n|]; [|discriminate].
  destruct (nth_error t 1) as [c|]; [|discriminate].
  destruct (nth_error t 2) as [s|]; [|discriminate].
  destruct (py_int s) as [z|]; [|discriminate].
  destruct (nth_error t 3) as [g|]; [|discriminate].
  intros [= <-]. cbn. auto.
Qed.

Lemma cached_set d tr :
  cached d ->
  transcript_length tr = get_length (cigar tr) ->
  index_map tr = make_index_map (cigar tr) ->
  cached (Dict.set d (name tr) tr).
Proof.
  unfold cached. intros Hd Hl Hm.
  induction Hd as [|[k v] d Hkv Hd IH]; cbn.
  - repeat constructor; assumption.
  - destruct (String.eqb_spec k (name tr)) as [-> | Hk].
    + constructor; [cbn; auto | assumption].
    + constructor; assumption.
Qed.

Lemma load_cached py_int rows : forall d d',
  cached d -> load_transcripts py_int rows d = inr d' -> cached d'.
Proof.
  induction rows as [|t rows IH]; intros d d' Hd; cbn.
  - now intros [= <-].
  - destruct (make_transcript py_int t) as [e|tr] eqn:E; [discriminate|].
    destruct (make_transcript_inv _ _ _ E) as (_ & Hl & Hm).
    apply IH. now apply cached_set.
Qed.

Lemma cached_get d n tr :
  cached d -> Dict.get d n = Some tr ->
  name tr = n /\
  transcript_length tr = get_length (cigar tr) /\
  index_map tr = make_index_map (cigar tr).
Proof.
  intros Hd Hget. apply dict_get_in in Hget.
  unfold cached in Hd. rewrite Forall_forall in Hd.
  exact (Hd _ Hget).
Qed.

Lemma load_app py_int a b d :
  load_transcripts py_int (a ++ b) d =
  match load_transcripts py_int a d with
  | inl e => inl e
  | inr d' => load_transcripts py_int b d'
  end.
Proof.
  revert d. induction a as [|t a IH]; intros d; cbn; [reflexivity|].
  destruct (make_transcript py_int t); [reflexivity | apply IH].
Qed.

Lemma load_other_names py_int rows n : forall d d',
  Forall (fun t => nth_error t 0 <> Some n) rows ->
  load_transcripts py_int rows d = inr d' ->
  Dict.get d' n = Dict.get d n.
Proof.
  induction rows as [|t rows IH]; intros d d' Hn; cbn.
  - now intros [= <-].
  - inversion Hn as [|? ? Ht Hrows]; subst.
    destruct (make_transcript py_int t) as [e|tr] eqn:E; [discriminate|].
    destruct (make_transcript_inv _ _ _ E) as (Hname & _).
    intros H. rewrite (IH _ _ Hrows H).
    apply dict_get_set_other. congruence.
Qed.

Lemma run_written py_int d qs : forall w,
  run_queries py_int d qs w =
  (w ++ fst (run_queries py_int d qs []), snd (run_queries py_int d qs [])).
Proof.
  induction qs as [|row qs IH]; intros w; cbn.
  - now rewrite app_nil_r.
  - destruct (query_row py_int d row) as [e|r]; cbn.
    + now rewrite app_nil_r.
    + rewrite (IH (w ++ [r])), (IH [r]). cbn. now rewrite <- app_assoc.
Qed.

Lemma run_cons py_int d row qs :
  run_queries py_int d (row :: qs) [] =
  match query_row py_int d row with
  | inl e => ([], Some e)
  | inr r => (r :: fst (run_queries py_int d qs []),
              snd (run_queries py_int d qs []))
  end.
Proof.
  cbn. destruct (query_row py_int d row) as [e|r]; [reflexivity|].
  now rewrite run_written.
Qed.

Lemma run_app py_int d qs1 qs2 :
  run_queries py_int d (qs1 ++ qs2) [] =
  match snd (run_queries py_int d qs1 []) with
  | Some e => (fst (run_queries py_int d qs1 []), Some e)
  | None => (fst (run_queries py_int d qs1 [])
             ++ fst (run_queries py_int d qs2 []),
             snd (run_queries py_int d qs2 []))
  end.
Proof.
  induction qs1 as [|row qs1 IH].
  - cbn [app]. cbn. now destruct (run_queries py_int d qs2 []).
  - rewrite <- app_comm_cons, !run_cons.
    destruct (query_row py_int d row) as [e|r]; [reflexivity|].
    cbn [fst snd]. rewrite IH.
    now destruct (snd (run_queries py_int d qs1 [])).
Qed.

(** X5.  [main] fails fast and keeps what it wrote: when the run over the
    queries [qs1] stops on an exception, the run over [qs1 ++ qs2] stops
    on it with the same rows; when it completes, the run over
    [qs1 ++ qs2] writes its rows and then behaves as the run over [qs2]. *)
Theorem main_fail_fast (py_int : string -> option Z)
        (transcripts qs1 qs2 : list (list string))
        (rows1 : list out_row) (e1 : option exn) :
  main py_int transcripts qs1 = inr (rows1, e1) ->
  main py_int transcripts (qs1 ++ qs2) =
  match e1 with
  | Some e => inr (rows1, Some e)
  | None =>
      match main py_int transcripts qs2 with
      | inl e => inl e
      | inr (rows2, e2) => inr (rows1 ++ rows2, e2)
      end
  end.
Proof.
  unfold main.
  destruct (load_transcripts py_int transcripts []) as [e|d]; [discriminate|].
  intros [= H]. rewrite run_app, H. cbn [fst snd].
  destruct e1; [reflexivity|].
  now destruct (run_queries py_int d qs2 []).
Qed.

Lemma main_fail_fast_witness :
  main int_digits [["TR1"; "CHR1"; "3"; "8M7D6M2I2M11D7M"]]%string
       ([["TR1"; "4"]; ["TR1"; "25"]]%string ++ [["TR1"; "13"]]%string)
  = inr ([("TR1", 4, "CHR1", 7)%string],
         Some (NoCoordinate "TR1" 25)).
Proof.
  exact (main_fail_fast int_digits
           [["TR1"; "CHR1"; "3"; "8M7D6M2I2M11D7M"]]%string
           [["TR1"; "4"]; ["TR1"; "25"]]%string [["TR1"; "13"]]%string
           [("TR1", 4, "CHR1", 7)%string]
           (Some (NoCoordinate "TR1" 25)) eq_refl).
Defined.

Lemma translate_none_iff q im rs L :
  translate_coordinate q im rs L = None <-> ~ 0 <= q < L.
Proof.
  split.
  - intros H Hq. rewrite translate_in_range in H by assumption. discriminate.
  - intros H. unfold translate_coordinate.
    destruct (Z.geb_spec q L); [reflexivity|].
    destruct (Z.ltb_spec q 0); [reflexivity | lia].
Qed.

Lemma query_row_answerable py_int d row :
  cached d ->
  (exists r, query_row py_int d row = inr r) <-> answerable py_int d row.
Proof.
  intros Hd. unfold answerable. split.
  - intros [r H]. unfold query_row, int_of in H.
    destruct row as [|n [|s [|x row]]]; try discriminate.
    destruct (py_int s) as [q|] eqn:Hq; [|discriminate].
    destruct (Dict.get d n) as [tr|] eqn:Hget; [|discriminate].
    destruct (cached_get _ _ _ Hd Hget) as (_ & Hl & _).
    destruct (translate_coordinate _ _ _ _) eqn:Ht; [|discriminate].
    assert (Hr : 0 <= q < transcript_length tr).
    { destruct (Z.le_gt_cases 0 q), (Z.lt_ge_cases q (transcript_length tr));
        try lia;
        rewrite (proj2 (translate_none_iff _ _ _ _)) in Ht by lia;
        discriminate. }
    rewrite Hl in Hr. exists n, s, q, tr. auto.
  - intros (n & s & q & tr & -> & Hq & Hget & Hr).
    destruct (cached_get _ _ _ Hd Hget) as (_ & Hl & _).
    unfold query_row, int_of. rewrite Hq, Hget, Hl.
    rewrite translate_in_range by assumption. eauto.
Qed.

Lemma cached_nil : cached [].
Proof. constructor. Qed.

(** X6.  When the transcripts load, [main] runs to its end exactly when
    every query row has two fields, a query that converts, a transcript
    name that was loaded, and a query in the range of that transcript's
    CIGAR string; it then writes one row per query, and fewer rows
    otherwise. *)
Theorem main_completes_iff (py_int : string -> option Z)
        (transcripts queries : list (list string))
        (d : dict Transcript) (rows : list out_row) (err : option exn) :
  load_transcripts py_int transcripts [] = inr d ->
  main py_int transcripts queries = inr (rows, err) ->
  (err = None <-> Forall (answerable py_int d) queries) /\
  (err = None <-> List.length rows = List.length queries) /\
  (List.length rows <= List.length queries)%nat.
Proof.
  unfold main. intros Hload. rewrite Hload. intros [= Hrun].
  pose proof (load_cached _ _ _ _ cached_nil Hload) as Hd.
  clear Hload. revert rows err Hrun.
  induction queries as [|row qs IH]; intros rows err Hrun.
  - cbn in Hrun. inversion Hrun; subst. cbn. repeat split; auto.
  - rewrite run_cons in Hrun.
    pose proof (query_row_answerable py_int d row Hd) as Hrow.
    destruct (query_row py_int d row) as [e|r].
    + inversion Hrun; subst. cbn. repeat split; try discriminate; try lia.
      intros H. inversion H as [|? ? Ha _]; subst.
      apply Hrow in Ha. destruct Ha as [r Hr]. discriminate.
    + destruct (run_queries py_int d qs []) as [rows' err'] eqn:E.
      cbn [fst snd] in Hrun. inversion Hrun; subst.
      destruct (IH rows' err eq_refl) as (H1 & H2 & H3).
      cbn [List.length]. repeat split; try lia.
      * intros H. constructor; [apply Hrow; eauto | now apply H1].
      * intros H. inversion H; subst. now apply H1.
      * intros H. apply H2 in H. lia.
      * intros H. apply H2. lia.
Qed.

Lemma main_completes_iff_witness :
  Forall (answerable int_digits
            [("TR1"%string,
              mk_Transcript "TR1" "CHR1" 3 "8M7D6M2I2M11D7M" 25
                            [(7, 7); (13, -2); (17, 11)])])
         [["TR1"; "4"]; ["TR1"; "13"]]%string.
Proof.
  apply (proj1 (proj1 (main_completes_iff int_digits
           [["TR1"; "CHR1"; "3"; "8M7D6M2I2M11D7M"]]%string
           [["TR1"; "4"]; ["TR1"; "13"]]%string _
           [("TR1", 4, "CHR1", 7); ("TR1", 13, "CHR1", 23)]%string None
           eq_refl eq_refl))).
  reflexivity.
Defined.

Lemma run_rows_in py_int d qs r :
  In r (fst (run_queries py_int d qs [])) ->
  exists row, In row qs /\ query_row py_int d row = inr r.
Proof.
  induction qs as [|row qs IH]; [intros []|].
  rewrite run_cons.
  destruct (query_row py_int d row) as [e|r'] eqn:E; [intros []|].
  cbn [fst]. intros [<- | Hin].
  - exists row. split; [now left | assumption].
  - destruct (IH Hin) as (row' & Hrow & Hq).
    exists row'. split; [now right | assumption].
Qed.

Lemma query_row_inv py_int d row n q c r :
  cached d -> query_row py_int d row = inr (n, q, c, r) ->
  exists tr,
    Dict.get d n = Some tr /\ c = chromosome tr /\
    0 <= q < get_length (cigar tr) /\
    translate_coordinate q (make_index_map (cigar tr)) (ref_start tr)
                         (get_length (cigar tr)) = Some r.
Proof.
  intros Hd H. unfold query_row, int_of in H.
  destruct row as [|n' [|s [|x row]]]; try discriminate.
  destruct (py_int s) as [q'|]; [|discriminate].
  destruct (Dict.get d n') as [tr|] eqn:Hget; [|discriminate].
  destruct (cached_get _ _ _ Hd Hget) as (_ & Hl & Hm).
  rewrite Hl, Hm in H.
  destruct (translate_coordinate _ _ _ _) as [r'|] eqn:Ht; [|discriminate].
  inversion H; subst. exists tr. repeat split; try assumption.
  - destruct (Z.le_gt_cases 0 q); [assumption|].
    rewrite (proj2 (translate_none_iff _ _ _ _)) in Ht by lia. discriminate.
  - destruct (Z.lt_ge_cases q (get_length (cigar tr))); [assumption|].
    rewrite (proj2 (translate_none_iff _ _ _ _)) in Ht by lia. discriminate.
Qed.

(** X7.  Every row that [main] writes, also before an exception, is the
    translation of its query against the CIGAR string of the transcript
    loaded under its name: the cached length and index map are those of
    that string, the query is in its range, and the chromosome is passed
    through. *)
Theorem main_rows_translated (py_int : string -> option Z)
        (transcripts queries : list (list string))
        (d : dict Transcript) (rows : list out_row) (err : option exn)
        (n : string) (q : Z) (c : string) (r : Z) :
  load_transcripts py_int transcripts [] = inr d ->
  main py_int transcripts queries = inr (rows, err) ->
  In (n, q, c, r) rows ->
  exists tr,
    Dict.get d n = Some tr /\ c = chromosome tr /\
    0 <= q < get_length (cigar tr) /\
    translate_coordinate q (make_index_map (cigar tr)) (ref_start tr)
                         (get_length (cigar tr)) = Some r.
Proof.
  unfold main. intros Hload. rewrite Hload. intros [= Hrun] Hin.
  pose proof (load_cached _ _ _ _ cached_nil Hload) as Hd.
  assert (Hin' : In (n, q, c, r) (fst (run_queries py_int d queries [])))
    by now rewrite Hrun.
  destruct (run_rows_in _ _ _ _ Hin') as (row & _ & Hrow).
  exact (query_row_inv _ _ _ _ _ _ _ Hd Hrow).
Qed.

Lemma main_rows_translated_witness :
  exists tr,
    Dict.get [("TR1"%string,
               mk_Transcript "TR1" "CHR1" 3 "8M7D6M2I2M11D7M" 25
                             [(7, 7); (13, -2); (17, 11)])] "TR1"
    = Some tr /\ "CHR1"%string = chromosome tr /\
    0 <= 13 < get_length (cigar tr) /\
    translate_coordinate 13 (make_index_map (cigar tr)) (ref_start tr)
                         (get_length (cigar tr)) = Some 23.
Proof.
  apply (main_rows_translated int_digits
           [["TR1"; "CHR1"; "3"; "8M7D6M2I2M11D7M"]]%string
           [["TR1"; "4"]; ["TR1"; "13"]]%string _
           [("TR1", 4, "CHR1", 7); ("TR1", 13, "CHR1", 23)]%string None
           "TR1" 13 "CHR1" 23 eq_refl eq_refl).
  right. now left.
Defined.

(** X8.  In the output of one run the rows of one transcript are
    consistent: they carry the same chromosome, and a larger query never
    has a smaller coordinate (so equal queries have equal coordinates). *)
Theorem main_rows_monotone (py_int : string -> option Z)
        (transcripts queries : list (list string))
        (rows : list out_row) (err : option exn)
        (n : string) (q1 q2 : Z) (c1 c2 : string) (r1 r2 : Z) :
  main py_int transcripts queries = inr (rows, err) ->
  In (n, q1, c1, r1) rows -> In (n, q2, c2, r2) rows ->
  q1 <= q2 ->
  r1 <= r2 /\ c1 = c2.
Proof.
  unfold main.
  destruct (load_transcripts py_int transcripts []) as [e|d] eqn:Hload;
    [discriminate|].
  intros [= Hrun] H1 H2 Hq.
  pose proof (load_cached _ _ _ _ cached_nil Hload) as Hd.
  assert (Hrows : rows = fst (run_queries py_int d queries []))
    by now rewrite Hrun.
  rewrite Hrows in H1, H2.
  destruct (run_rows_in _ _ _ _ H1) as (row1 & _ & Hrow1).
  destruct (run_rows_in _ _ _ _ H2) as (row2 & _ & Hrow2).
  destruct (query_row_inv _ _ _ _ _ _ _ Hd Hrow1) as (tr1 & Hg1 & -> & Hr1 & Ht1).
  destruct (query_row_inv _ _ _ _ _ _ _ Hd Hrow2) as (tr2 & Hg2 & -> & Hr2 & Ht2).
  assert (tr2 = tr1) as -> by congruence.
  rewrite translate_aligned in Ht1, Ht2 by assumption.
  inversion Ht1; inversion Ht2; subst.
  pose proof (aligned_monotone _ (operators_valid (cigar tr1)) 0 q1 q2
                               ltac:(lia) Hq).
  split; [lia | reflexivity].
Qed.

Lemma main_rows_monotone_witness :
  7 <= 23 /\ "CHR1"%string = "CHR1"%string.
Proof.
  apply (main_rows_monotone int_digits
           [["TR1"; "CHR1"; "3"; "8M7D6M2I2M11D7M"]]%string
           [["TR1"; "13"]; ["TR1"; "4"]]%string
           [("TR1", 13, "CHR1", 23); ("TR1", 4, "CHR1", 7)]%string None
           "TR1" 4 13 "CHR1" "CHR1" 7 23 eq_refl);
    [right; now left | now left | lia].
Defined.

(** X9.  A transcript name is looked up in the last row that defines it:
    after loading, the name of a row that no later row repeats maps to the
    transcript of that row, and a name that no row has is absent, so that
    a query for it stops the run with [KeyError] before anything is
    written. *)
Theorem load_last_wins (py_int : string -> option Z)
        (pre post : list (list string)) (t : list string)
        (tr : Transcript) (d : dict Transcript) :
  load_transcripts py_int (pre ++ t :: post) [] = inr d ->
  make_transcript py_int t = inr tr ->
  Forall (fun t' => nth_error t' 0 <> Some (name tr)) post ->
  Dict.get d (name tr) = Some tr /\
  forall n query q,
    Forall (fun t' => nth_error t' 0 <> Some n) (pre ++ t :: post) ->
    py_int query = Some q ->
    Dict.get d n = None /\
    main py_int (pre ++ t :: post) [[n; query]] = inr ([], Some (KeyError n)).
Proof.
  intros Hload Ht Hpost. split.
  - rewrite load_app in Hload.
    destruct (load_transcripts py_int pre []) as [e|d0]; [discriminate|].
    cbn [load_transcripts] in Hload. rewrite Ht in Hload.
    rewrite (load_other_names _ _ _ _ _ Hpost Hload).
    apply dict_get_set_same.
  - intros n query q Hn Hq.
    pose proof (load_other_names _ _ _ _ _ Hn Hload) as Hget. cbn in Hget.
    split; [assumption|].
    unfold main. rewrite Hload. cbn. unfold int_of. now rewrite Hq, Hget.
Qed.

Lemma load_last_wins_witness :
  Dict.get [("TR1"%string,
             mk_Transcript "TR1" "CHR2" 10 "20M" 20 [])] "TR1"
  = Some (mk_Transcript "TR1" "CHR2" 10 "20M" 20 []).
Proof.
  apply (load_last_wins int_digits
           [["TR1"; "CHR1"; "3"; "8M7D6M2I2M11D7M"]]%string []
           ["TR1"; "CHR2"; "10"; "20M"]%string
           (mk_Transcript "TR1" "CHR2" 10 "20M" 20 []) _ eq_refl eq_refl).
  constructor.
Defined.

(** * The transformation of the HGVS annotations *)

Section HgvsProperties.

Import Hgvs.

Context {float : Type}.
Variable repr_float : float -> string.
Variable str_container : @value float -> string.

Local Abbreviation value := (@value float).

Lemma value_induction (P : value -> Prop) :
  (forall a, P (Atom a)) ->
  (forall l, Forall P l -> P (PyList l)) ->
  (forall d, Forall (fun kv => P (snd kv)) d -> P (PyDict d)) ->
  forall v, P v.
Proof.
  intros Ha Hl Hd. fix IH 1. intros [a|l|d].
  - apply Ha.
  - apply Hl. induction l; constructor; [apply IH | assumption].
  - apply Hd. induction d as [|[k v] d]; constructor; [apply IH | assumption].
Qed.

Lemma find_occurs key (v : value) : forall data,
  In v (find_my_keys key data) -> occurs key v data.
Proof.
  induction data as [a|l IH|d IH] using value_induction; cbn [find_my_keys].
  - intros [].
  - intros H. apply in_flat_map in H. destruct H as (child & Hin & Hv).
    rewrite Forall_forall in IH.
    exact (occurs_in_list key v l child Hin (IH _ Hin Hv)).
  - intros H. apply in_flat_map in H. destruct H as ([k child] & Hin & Hv).
    cbn [fst snd] in Hv. rewrite Forall_forall in IH.
    destruct (negb (is_container child) && String.eqb k key) eqn:E.
    + apply andb_prop in E. destruct E as [Hc Hk].
      apply negb_true_iff in Hc. apply String.eqb_eq in Hk.
      destruct Hv as [<- | []]. subst k.
      now apply occurs_here.
    + exact (occurs_in_dict key v d k child Hin (IH _ Hin Hv)).
Qed.

Lemma find_leaf key (v : value) :
  is_container v = false -> find_my_keys key v = [].
Proof. now destruct v. Qed.

Lemma occurs_find key (v : value) data :
  occurs key v data -> In v (find_my_keys key data).
Proof.
  induction 1 as [d Hin Hc | d k child Hin _ IH | l child Hin _ IH];
    cbn [find_my_keys]; apply in_flat_map.
  - exists (key, v). split; [assumption|]. cbn [fst snd].
    rewrite Hc, String.eqb_refl. now left.
  - exists (k, child). split; [assumption|]. cbn [fst snd].
    destruct (is_container child) eqn:Hc; cbn [negb andb]; [assumption|].
    rewrite (find_leaf key child Hc) in IH. destruct IH.
  - exists child. split; assumption.
Qed.

Lemma occurs_leaf key (v : value) data :
  occurs key v data -> is_container v = false.
Proof. induction 1; assumption. Qed.

(** X10.  [find_my_keys] yields exactly the values of [key] that are
    neither a list nor a dict, in the dicts at every depth of the data: a
    value comes out if and only if it occurs so, nothing that comes out is
    a list or a dict, and data that is no list or dict yields nothing. *)
Theorem find_my_keys_spec (key : string) (data v : value) :
  (In v (find_my_keys key data) <-> occurs key v data) /\
  Forall (fun found => is_container found = false) (find_my_keys key data) /\
  (is_container data = false -> find_my_keys key data = []).
Proof.
  split; [|split].
  - split; [apply find_occurs | apply occurs_find].
  - apply Forall_forall. intros found H.
    exact (occurs_leaf key found data (find_occurs _ _ _ H)).
  - apply find_leaf.
Qed.

(** ** The transformed annotation *)

(** The value [transform_ensembl_annotations] gives to a key. *)
Lemma transform_key_set annotation decoded key :
  exists v : value,
    transform_key annotation decoded key = Dict.set decoded key v /\
    v = match Dict.get annotation key with
        | Some top =>
            if negb (is_container top) then top
            else if Nat.eqb (List.length (find_my_keys key (PyDict annotation))) 0
                 then NA
                 else PyList (find_my_keys key (PyDict annotation))
        | None =>
            if Nat.eqb (List.length (find_my_keys key (PyDict annotation))) 0
            then NA
            else PyList (find_my_keys key (PyDict annotation))
        end.
Proof.
  unfold transform_key.
  destruct (Dict.get annotation key) as [top|].
  - destruct (negb (is_container top)); [eauto|].
    destruct (Nat.eqb _ 0); eauto.
  - destruct (Nat.eqb _ 0); eauto.
Qed.

Lemma dict_get_none_keys {V : Type} (d : dict V) k :
  Dict.get d k = None <-> ~ In k (Dict.keys d).
Proof.
  unfold Dict.keys. induction d as [|[k' v] d IH]; cbn.
  - tauto.
  - destruct (String.eqb_spec k' k) as [-> | Hk].
    + split; [discriminate | intros H; exfalso; apply H; now left].
    + rewrite IH. split; [intros H [H' | H']; tauto | tauto].
Qed.

Lemma dict_keys_set {V : Type} (d : dict V) k v :
  Dict.keys (Dict.set d k v) =
  if in_dec string_dec k (Dict.keys d) then Dict.keys d else Dict.keys d ++ [k].
Proof.
  unfold Dict.keys. induction d as [|[k' v'] d IH]; cbn [Dict.set map fst].
  - now destruct (in_dec string_dec k []).
  - destruct (String.eqb_spec k' k) as [-> | Hk]; cbn [map fst].
    + destruct (in_dec _ k (k :: map fst d)) as [_ | H]; [reflexivity|].
      exfalso. apply H. now left.
    + rewrite IH.
      destruct (in_dec _ k (map fst d)) as [Hin | Hin],
               (in_dec _ k (k' :: map fst d)) as [Hin' | Hin'];
        try reflexivity.
      * exfalso. apply Hin'. now right.
      * destruct Hin' as [-> | Hin']; [congruence | tauto].
Qed.

Lemma dict_wf_set {V : Type} (d : dict V) k v :
  Dict.wf d -> Dict.wf (Dict.set d k v).
Proof.
  unfold Dict.wf. rewrite dict_keys_set. intros Hd.
  destruct (in_dec string_dec k (Dict.keys d)) as [Hin | Hin]; [assumption|].
  apply NoDup_app; [assumption | repeat constructor; intros [] | ].
  intros x Hx [<- | []]. tauto.
Qed.

Lemma dict_in_keys_set {V : Type} (d : dict V) k v x :
  In x (Dict.keys (Dict.set d k v)) <-> x = k \/ In x (Dict.keys d).
Proof.
  rewrite dict_keys_set.
  destruct (in_dec string_dec k (Dict.keys d)) as [Hin | Hin].
  - split; [tauto | intros [-> | H]; assumption].
  - rewrite in_app_iff. split.
    + intros [H | [<- | []]]; [now right | now left].
    + intros [-> | H]; [right; now left | now left].
Qed.

Lemma transform_fold annotation keys : forall (decoded : dict value) k,
  Dict.get (fold_left (transform_key annotation) keys decoded) k =
  if in_dec string_dec k keys
  then Dict.get (transform_key annotation [] k) k
  else Dict.get decoded k.
Proof.
  induction keys as [|key keys IH]; intros decoded k; [reflexivity|].
  cbn [fold_left]. rewrite IH.
  destruct (in_dec string_dec k keys) as [Hin | Hin],
           (in_dec string_dec k (key :: keys)) as [Hin' | Hin'];
    try reflexivity.
  - exfalso. apply Hin'. now right.
  - destruct Hin' as [-> | Hin']; [|tauto].
    destruct (transform_key_set annotation decoded k) as (v1 & H1 & E1).
    destruct (transform_key_set annotation [] k) as (v2 & H2 & E2).
    rewrite H1, H2, !dict_get_set_same, E1, E2. reflexivity.
  - destruct (transform_key_set annotation decoded key) as (v & -> & _).
    apply dict_get_set_other. intros ->. apply Hin'. now left.
Qed.

Lemma transform_fold_keys annotation keys : forall (decoded : dict value),
  Dict.wf decoded ->
  Dict.wf (fold_left (transform_key annotation) keys decoded) /\
  forall x, In x (Dict.keys (fold_left (transform_key annotation) keys decoded))
            <-> In x keys \/ In x (Dict.keys decoded).
Proof.
  induction keys as [|key keys IH]; intros decoded Hd; cbn [fold_left].
  - split; [assumption | cbn; tauto].
  - destruct (transform_key_set annotation decoded key) as (v & -> & _).
    destruct (IH _ (dict_wf_set decoded key v Hd)) as [Hwf Hkeys].
    split; [assumption|].
    intros x. rewrite Hkeys, dict_in_keys_set. cbn [In].
    split; [intros [H | [-> | H]] | intros [[<- | H] | H]]; tauto.
Qed.

(** X11.  [transform_ensembl_annotations] returns a dict with exactly the
    keys of interest.  A key whose value at the top of the annotation is
    no list or dict keeps that value, whatever is nested below; any other
    key gets ['NA'] when [find_my_keys] finds nothing for it, so for every
    key on an empty or an error response, and the list of what it finds
    otherwise. *)
Theorem transform_spec (annotation : dict value) (keys : list string) (k : string) :
  Dict.wf (transform_ensembl_annotations annotation keys) /\
  (In k (Dict.keys (transform_ensembl_annotations annotation keys)) <-> In k keys) /\
  (In k keys ->
   (forall top, Dict.get annotation k = Some top -> is_container top = false ->
      Dict.get (transform_ensembl_annotations annotation keys) k = Some top) /\
   ((forall top, Dict.get annotation k = Some top -> is_container top = true) ->
      (find_my_keys k (PyDict annotation) = [] ->
       Dict.get (transform_ensembl_annotations annotation keys) k = Some NA) /\
      (find_my_keys k (PyDict annotation) <> [] ->
       Dict.get (transform_ensembl_annotations annotation keys) k
       = Some (PyList (find_my_keys k (PyDict annotation)))))).
Proof.
  unfold transform_ensembl_annotations.
  destruct (transform_fold_keys annotation keys [] (NoDup_nil _)) as [Hwf Hkeys].
  split; [assumption|]. split; [rewrite Hkeys; cbn; tauto|].
  intros Hin. rewrite transform_fold.
  destruct (in_dec string_dec k keys) as [_ | H]; [|tauto].
  destruct (transform_key_set annotation [] k) as (v & -> & Hv).
  rewrite dict_get_set_same. split.
  - intros top Htop Hc. rewrite Htop, Hc in Hv. cbn in Hv. now subst.
  - intros Htop.
    assert (Hv' : v = if Nat.eqb (List.length (find_my_keys k (PyDict annotation))) 0
                      then NA else PyList (find_my_keys k (PyDict annotation))).
    { destruct (Dict.get annotation k) as [top|]; [|assumption].
      now rewrite (Htop top eq_refl) in Hv. }
    split; intros Hf.
    + now rewrite Hv', Hf.
    + rewrite Hv'. destruct (find_my_keys k (PyDict annotation)); [congruence|].
      reflexivity.
Qed.

(** ** Sorting *)

Lemma string_compare_eq (a b : string) :
  String.compare a b = OrdersEx.String_as_OT.compare a b.
Proof.
  revert b. induction a as [|x a IH]; intros [|y b]; cbn; reflexivity.
Qed.

Lemma leb_lt_or_eq (a b : string) :
  String.leb a b = true <-> OrdersEx.String_as_OT.lt a b \/ a = b.
Proof.
  unfold String.leb, OrdersEx.String_as_OT.lt.
  rewrite string_compare_eq.
  destruct (OrdersEx.String_as_OT.compare_spec a b) as [H | H | H].
  - tauto.
  - tauto.
  - split; [discriminate|].
    intros [H' | ->].
    + discriminate.
    + exfalso. exact (RelationClasses.StrictOrder_Irreflexive _ H).
Qed.

Lemma leb_refl (a : string) : String.leb a a = true.
Proof. apply leb_lt_or_eq. now right. Qed.

Lemma leb_trans (a b c : string) :
  String.leb a b = true -> String.leb b c = true -> String.leb a c = true.
Proof.
  rewrite !leb_lt_or_eq. intros [H1 | ->] [H2 | ->]; auto.
  left. exact (RelationClasses.StrictOrder_Transitive _ _ _ H1 H2).
Qed.

Lemma insert_perm x l : Permutation (insert x l) (x :: l).
Proof.
  induction l as [|y l IH]; cbn; [reflexivity|].
  destruct (String.leb x y); [reflexivity|].
  rewrite IH. apply perm_swap.
Qed.

Lemma insert_sorted x l :
  StronglySorted string_le l -> StronglySorted string_le (insert x l).
Proof.
  induction 1 as [|y l Hl IH Hy]; cbn.
  - repeat constructor.
  - destruct (String.leb x y) eqn:E.
    + constructor; [now constructor|].
      constructor; [exact E|].
      eapply Forall_impl; [|exact Hy]. intros z Hz. exact (leb_trans _ _ _ E Hz).
    + constructor; [assumption|].
      apply (Permutation_Forall (x := x :: l)); [symmetry; apply insert_perm|].
      constructor; [|assumption].
      destruct (String.leb_total x y) as [H | H]; [congruence | exact H].
Qed.

Lemma sorted_perm l : Permutation (sorted l) l.
Proof.
  induction l as [|x l IH]; cbn; [reflexivity|].
  rewrite insert_perm. now constructor.
Qed.

Lemma sorted_sorted l : StronglySorted string_le (sorted l).
Proof.
  induction l as [|x l IH]; cbn; [constructor | now apply insert_sorted].
Qed.

(** Two sorted lists without repetition that hold the same strings are
    the same list. *)
Lemma sorted_unique (l1 : list string) : forall l2,
  StronglySorted string_le l1 -> StronglySorted string_le l2 ->
  NoDup l1 -> NoDup l2 ->
  (forall x, In x l1 <-> In x l2) -> l1 = l2.
Proof.
  induction l1 as [|x l1 IH]; intros [|y l2] S1 S2 N1 N2 Hin.
  - reflexivity.
  - exfalso. apply (proj2 (Hin y)). now left.
  - exfalso. apply (proj1 (Hin x)). now left.
  - inversion S1 as [|? ? S1' Hx]; inversion S2 as [|? ? S2' Hy]; subst.
    inversion N1 as [|? ? Nx N1']; inversion N2 as [|? ? Ny N2']; subst.
    rewrite Forall_forall in Hx, Hy.
    assert (x = y).
    { destruct (proj1 (Hin x) (or_introl eq_refl)) as [-> | Hxy]; [reflexivity|].
      destruct (proj2 (Hin y) (or_introl eq_refl)) as [-> | Hyx]; [reflexivity|].
      apply String.leb_antisym; [now apply Hx | now apply Hy]. }
    subst y. f_equal. apply IH; try assumption.
    intros z. split; intros Hz.
    + destruct (proj1 (Hin z) (or_intror Hz)) as [-> | H]; [tauto | assumption].
    + destruct (proj2 (Hin z) (or_intror Hz)) as [-> | H]; [tauto | assumption].
Qed.

(** X12.  The cell written for a list of found values depends only on the
    set of their strings: two lists whose values print to the same
    strings, in any order and any number of times, give the same cell. *)
Theorem joined_set (l1 l2 : list value) :
  (forall s, In s (map (str repr_float str_container) l1)
             <-> In s (map (str repr_float str_container) l2)) ->
  joined repr_float str_container l1 = joined repr_float str_container l2.
Proof.
  intros H. unfold joined. f_equal.
  assert (Hnodup : forall l : list string, NoDup (sorted (nodup string_dec l))).
  { intros l. eapply Permutation_NoDup;
      [symmetry; apply sorted_perm | apply NoDup_nodup]. }
  assert (Hin : forall (l : list string) x,
            In x (sorted (nodup string_dec l)) <-> In x l).
  { intros l x. rewrite <- (nodup_In string_dec l x). split.
    - apply Permutation_in, sorted_perm.
    - apply Permutation_in. symmetry. apply sorted_perm. }
  apply sorted_unique; try apply sorted_sorted; try apply Hnodup.
  intros x. rewrite !Hin. apply H.
Qed.

(** ** The rows of the table *)

Lemma append_cell_length w (v : value) :
  exists cells,
    append_cell repr_float str_container w v = w ++ cells /\
    List.length cells = if writable v then 1%nat else 0%nat.
Proof.
  unfold append_cell.
  destruct v as [[| | | |]|l|d]; cbn [is_scalar writable];
    try (eexists; split; [reflexivity | reflexivity]).
  - exists []. now rewrite app_nil_r.
  - exists []. now rewrite app_nil_r.
Qed.

(** The cells of a row follow what the row starts with, one for each
    column whose value is writable. *)
Lemma row_loop_cells extract cols : forall w row,
  row_loop repr_float str_container extract cols w = inr row ->
  exists cells,
    row = w ++ cells /\
    List.length cells =
    List.length (filter (fun key => match Dict.get extract key with
                                    | Some v => writable v
                                    | None => false
                                    end) cols).
Proof.
  induction cols as [|key cols IH]; intros w row; cbn [row_loop filter].
  - intros [= <-]. exists []. now rewrite app_nil_r.
  - destruct (Dict.get extract key) as [v|]; [|discriminate].
    intros H. destruct (IH _ _ H) as (cells & -> & Hlen).
    destruct (append_cell_length w v) as (c & -> & Hc).
    exists (c ++ cells). rewrite <- app_assoc. split; [reflexivity|].
    rewrite length_app, Hc, Hlen. destruct (writable v); reflexivity.
Qed.

Lemma row_loop_ok extract cols : forall w,
  Forall (fun key => Dict.get extract key <> None) cols ->
  exists row, row_loop repr_float str_container extract cols w = inr row.
Proof.
  induction cols as [|key cols IH]; intros w H; cbn [row_loop]; [eauto|].
  inversion H as [|? ? Hkey Hcols]; subst.
  destruct (Dict.get extract key) as [v|]; [|congruence].
  now apply IH.
Qed.

Lemma filter_length_le {A : Type} (f : A -> bool) (l : list A) :
  (List.length (filter f l) <= List.length l)%nat.
Proof.
  induction l as [|x l IH]; cbn; [lia|]. destruct (f x); cbn; lia.
Qed.

Lemma append_cell_cell w (v : value) :
  append_cell repr_float str_container w v
  = w ++ cell repr_float str_container v.
Proof.
  unfold append_cell, cell.
  destruct v as [[| | | |]|l|d]; cbn [is_scalar];
    rewrite ?app_nil_r; reflexivity.
Qed.

(** The row is what it starts with followed by the cells of the values of
    the columns, in the order of the columns. *)
Lemma row_loop_content extract cols : forall w row,
  row_loop repr_float str_container extract cols w = inr row ->
  exists values,
    Forall2 (fun key v => Dict.get extract key = Some v) cols values /\
    row = w ++ flat_map (cell repr_float str_container) values.
Proof.
  induction cols as [|key cols IH]; intros w row; cbn [row_loop].
  - intros [= <-]. exists []. split; [constructor | now rewrite app_nil_r].
  - destruct (Dict.get extract key) as [v|] eqn:Hget; [|discriminate].
    intros H. destruct (IH _ _ H) as (values & Hvalues & ->).
    exists (v :: values). split; [now constructor|].
    rewrite append_cell_cell, <- app_assoc. reflexivity.
Qed.

(** X13.  A row is its query followed by the cells of the values of the
    columns, in the order of the columns: the string of a str, int, float
    or bool, the joined strings of a list, and no cell for a [None] or a
    dict.  So the row has one cell per writable value after the query; it
    is never longer than the header, as long as the header when every
    value is writable, and shorter as soon as one column holds [None], the
    cells after it moving one column to the left. *)
Theorem row_cells (extract : dict value) (cols : list string)
        (hgvs : string) (row : list string) :
  row_loop repr_float str_container extract cols [hgvs] = inr row ->
  hd EmptyString row = hgvs /\
  (List.length row <= 1 + List.length cols)%nat /\
  (Forall (fun key => exists v, Dict.get extract key = Some v /\ writable v = true)
          cols ->
   List.length row = (1 + List.length cols)%nat) /\
  (forall key, In key cols -> Dict.get extract key = Some (Atom ANone) ->
   (List.length row < 1 + List.length cols)%nat) /\
  exists values,
    Forall2 (fun key v => Dict.get extract key = Some v) cols values /\
    row = hgvs :: flat_map (fun v =>
                              match v with
                              | Atom ANone => []
                              | Atom _ => [str repr_float str_container v]
                              | PyList l => [joined repr_float str_container l]
                              | PyDict _ => []
                              end) values /\
    List.length row = (1 + List.length (filter writable values))%nat.
Proof.
  intros H.
  destruct (row_loop_content _ _ _ _ H) as (values & Hvalues & Hcontent).
  destruct (row_loop_cells _ _ _ _ H) as (cells & -> & Hlen).
  cbn [app hd List.length]. rewrite Hlen.
  split; [reflexivity|]. split; [|split; [|split]].
  - pose proof (filter_length_le
                  (fun key => match Dict.get extract key with
                              | Some v => writable v
                              | None => false
                              end) cols). lia.
  - clear. intros Hall. f_equal.
    induction Hall as [|key cols (v & Hv & Hw) _ IH]; [reflexivity|].
    cbn [filter]. rewrite Hv, Hw. cbn [List.length]. now rewrite IH.
  - clear. intros key Hin Hnone. apply -> Nat.succ_lt_mono.
    induction cols as [|k cols IH]; [destruct Hin|].
    cbn [filter List.length]. destruct Hin as [-> | Hin].
    + rewrite Hnone. cbn [writable].
      pose proof (filter_length_le
                    (fun key => match Dict.get extract key with
                                | Some v => writable v
                                | None => false
                                end) cols). lia.
    + specialize (IH Hin).
      destruct (match Dict.get extract k with
                | Some v => writable v
                | None => false
                end); cbn [List.length]; lia.
  - exists values. split; [assumption|]. split; [exact Hcontent|].
    f_equal. clear -Hvalues.
    induction Hvalues as [|key v cols values Hv _ IH]; [reflexivity|].
    cbn [filter]. rewrite Hv.
    destruct (writable v); cbn [List.length]; now rewrite IH.
Qed.

Lemma rows_loop_written transformed cols qs : forall w,
  rows_loop repr_float str_container transformed cols qs w =
  (w ++ fst (rows_loop repr_float str_container transformed cols qs []),
   snd (rows_loop repr_float str_container transformed cols qs [])).
Proof.
  induction qs as [|hgvs qs IH]; intros w; cbn [rows_loop].
  - cbn. now rewrite app_nil_r.
  - destruct (Dict.get transformed hgvs) as [extract|];
      [|cbn; now rewrite app_nil_r].
    destruct (row_loop _ _ extract cols [hgvs]) as [e|row];
      [cbn; now rewrite app_nil_r|].
    rewrite (IH (w ++ [row])), (IH ([] ++ [row])). cbn [fst snd app].
    now rewrite <- app_assoc.
Qed.

(** The queries of the rows written are the first of the sorted queries,
    all of them when no exception stops the loop. *)
Lemma rows_loop_heads transformed cols qs :
  exists rest,
    qs = map (hd EmptyString)
             (fst (rows_loop repr_float str_container transformed cols qs []))
         ++ rest /\
    (snd (rows_loop repr_float str_container transformed cols qs []) = None ->
     rest = []) /\
    Forall (fun row => (1 <= List.length row <= 1 + List.length cols)%nat)
           (fst (rows_loop repr_float str_container transformed cols qs [])).
Proof.
  induction qs as [|hgvs qs (rest & Hqs & Hnone & Hlen)]; cbn [rows_loop].
  - exists []. cbn. auto.
  - destruct (Dict.get transformed hgvs) as [extract|];
      [|exists (hgvs :: qs); cbn; repeat split; [discriminate | constructor]].
    destruct (row_loop _ _ extract cols [hgvs]) as [e|row] eqn:E;
      [exists (hgvs :: qs); cbn; repeat split; [discriminate | constructor]|].
    rewrite rows_loop_written. cbn [fst snd app map].
    destruct (row_loop_cells _ _ _ _ E) as (cells & Hrow & Hcells).
    exists rest. split; [|split].
    + rewrite Hrow at 1. cbn [app hd]. now rewrite <- Hqs.
    + assumption.
    + constructor; [|assumption].
      rewrite Hrow. cbn [app List.length]. rewrite Hcells.
      pose proof (filter_length_le
                    (fun key => match Dict.get extract key with
                                | Some v => writable v
                                | None => false
                                end) cols). lia.
Qed.

Lemma sorted_prefix (l1 l2 : list string) :
  StronglySorted string_le (l1 ++ l2) -> StronglySorted string_le l1.
Proof.
  induction l1 as [|x l1 IH]; cbn; [constructor|].
  intros H. inversion H as [|? ? Hs Hx]; subst.
  constructor; [now apply IH|].
  apply Forall_app in Hx. tauto.
Qed.

(** X14.  The table starts with the header ['query'] and the column
    names; then come the rows, each with its query first, for the first
    of the queries in ascending order (by code point), and for all of them
    when no [KeyError] stops the writing: one row for each key of the
    transformed annotations. *)
Theorem make_tsv_rows (transformed : dict (dict value)) (cols : list string)
        (rows : list (list string)) (err : option exn) :
  make_transformed_annotations_tsv repr_float str_container transformed cols
  = (rows, err) ->
  exists body rest,
    rows = ("query"%string :: cols) :: body /\
    sorted (Dict.keys transformed) = map (hd EmptyString) body ++ rest /\
    (err = None -> rest = []) /\
    StronglySorted string_le (map (hd EmptyString) body) /\
    (err = None -> Permutation (map (hd EmptyString) body) (Dict.keys transformed)).
Proof.
  unfold make_transformed_annotations_tsv. rewrite rows_loop_written.
  intros [= <- <-].
  destruct (rows_loop_heads transformed cols (sorted (Dict.keys transformed)))
    as (rest & Hqs & Hnone & _).
  exists (fst (rows_loop repr_float str_container transformed cols
                         (sorted (Dict.keys transformed)) [])), rest.
  split; [reflexivity|]. split; [assumption|]. split; [assumption|]. split.
  - apply (sorted_prefix _ rest). rewrite <- Hqs. apply sorted_sorted.
  - intros H. specialize (Hnone H). subst rest. rewrite app_nil_r in Hqs.
    rewrite <- Hqs. apply sorted_perm.
Qed.

(** ** The whole transformation *)

Lemma dict_set_values {V : Type} (Q : V -> Prop) (d : dict V) k v :
  Forall (fun kv => Q (snd kv)) d -> Q v ->
  Forall (fun kv => Q (snd kv)) (Dict.set d k v).
Proof.
  intros Hd Hv. induction Hd as [|[k' v'] d Hkv Hd IH]; cbn [Dict.set].
  - now repeat constructor.
  - destruct (String.eqb k' k); constructor; assumption.
Qed.

Lemma transform_all_fold (l : dict (dict value)) : forall (d : dict (dict value)),
  let d' := fold_left (fun transformed kv =>
                         Dict.set transformed (fst kv)
                           (transform_ensembl_annotations (snd kv) keys_of_interest))
                      l d in
  (Forall (fun kv => exists ann,
             snd kv = transform_ensembl_annotations ann keys_of_interest) d ->
   Forall (fun kv => exists ann,
             snd kv = transform_ensembl_annotations ann keys_of_interest) d') /\
  (forall k, In k (Dict.keys d') <-> In k (Dict.keys l) \/ In k (Dict.keys d)) /\
  (Dict.wf d -> Dict.wf d').
Proof.
  induction l as [|[h ann] l IH]; intros d; cbn [fold_left fst snd].
  - split; [auto | split; [cbn; tauto | auto]].
  - destruct (IH (Dict.set d h (transform_ensembl_annotations ann keys_of_interest)))
      as (Hval & Hkeys & Hwf).
    split; [|split].
    + intros Hd. apply Hval.
      apply (dict_set_values
               (fun e => exists ann,
                  e = transform_ensembl_annotations ann keys_of_interest));
        eauto.
    + intros k. rewrite Hkeys, dict_in_keys_set. cbn [Dict.keys map fst In].
      split; [intros [H | [-> | H]] | intros [[<- | H] | H]]; tauto.
    + intros Hd. apply Hwf. now apply dict_wf_set.
Qed.

Lemma rows_loop_ok transformed cols qs :
  (forall h, In h qs ->
     exists extract, Dict.get transformed h = Some extract /\
                     Forall (fun key => Dict.get extract key <> None) cols) ->
  snd (rows_loop repr_float str_container transformed cols qs []) = None.
Proof.
  induction qs as [|hgvs qs IH]; intros H; [reflexivity|].
  cbn [rows_loop].
  destruct (H hgvs (or_introl eq_refl)) as (extract & -> & Hcols).
  destruct (row_loop_ok extract cols [hgvs] Hcols) as (row & ->).
  rewrite rows_loop_written. cbn [snd].
  apply IH. intros h Hh. apply H. now right.
Qed.

(** X15.  Whatever annotations were extracted, [main] writes the whole
    table without a [KeyError]: every transformed annotation has all the
    keys of interest.  After the header there is one row for each query
    of the annotations, in ascending order, each with its query and at
    most eight cells. *)
Theorem main_writes_all (hgvs_annotations : dict (dict value)) :
  exists body,
    main repr_float str_container hgvs_annotations
    = (("query"%string :: keys_of_interest) :: body, None) /\
    StronglySorted string_le (map (hd EmptyString) body) /\
    NoDup (map (hd EmptyString) body) /\
    (forall h, In h (map (hd EmptyString) body)
               <-> In h (Dict.keys hgvs_annotations)) /\
    Forall (fun row => (1 <= List.length row <= 9)%nat) body.
Proof.
  unfold main, make_transformed_annotations_tsv.
  destruct (transform_all_fold hgvs_annotations []) as (Hval & Hkeys & Hwf).
  fold (transform_all hgvs_annotations) in Hval, Hkeys, Hwf.
  specialize (Hval (Forall_nil _)). rewrite Forall_forall in Hval.
  specialize (Hwf (NoDup_nil _)).
  set (transformed := transform_all hgvs_annotations) in *.
  set (qs := sorted (Dict.keys transformed)).
  assert (Hok : snd (rows_loop repr_float str_container transformed
                               keys_of_interest qs []) = None).
  { apply rows_loop_ok. intros h Hh.
    apply (Permutation_in _ (sorted_perm _)) in Hh.
    destruct (Dict.get transformed h) as [extract|] eqn:Hget;
      [|now apply dict_get_none_keys in Hget].
    exists extract. split; [reflexivity|].
    destruct (Hval _ (dict_get_in _ _ _ Hget)) as (ann & Hann).
    cbn [snd] in Hann. subst extract.
    apply Forall_forall. intros key Hkey Hnone.
    apply dict_get_none_keys in Hnone. apply Hnone.
    apply (proj2 (transform_fold_keys ann keys_of_interest [] (NoDup_nil _))).
    now left. }
  destruct (rows_loop_heads transformed keys_of_interest qs)
    as (rest & Hqs & Hnone & Hlen).
  specialize (Hnone Hok). subst rest. rewrite app_nil_r in Hqs.
  rewrite rows_loop_written, Hok.
  exists (fst (rows_loop repr_float str_container transformed
                         keys_of_interest qs [])).
  split; [reflexivity|]. rewrite <- Hqs.
  split; [apply sorted_sorted|]. split; [|split].
  - eapply Permutation_NoDup; [symmetry; apply sorted_perm | exact Hwf].
  - intros h. unfold qs. split; intros Hh.
    + apply (Permutation_in _ (sorted_perm _)) in Hh.
      apply Hkeys in Hh. cbn in Hh. tauto.
    + apply (Permutation_in _ (Permutation_sym (sorted_perm _))).
      apply Hkeys. now left.
  - exact Hlen.
Qed.

End HgvsProperties.

Import Hgvs.

Lemma joined_set_witness :
  joined no_float no_container
         [Atom (AInt 7); Atom (AStr "6"); Atom (AInt 7)]
  = joined no_float no_container [Atom (AStr "6"); Atom (AStr "7")].
Proof.
  apply joined_set. intros s. vm_compute. tauto.
Defined.

Lemma row_cells_witness :
  hd EmptyString ["A"; "1"; "2,3,4"; "5"]%string = "A"%string /\
  (List.length ["A"; "1"; "2,3,4"; "5"]%string <= 1 + 3)%nat /\
  exists values,
    Forall2 (fun key v =>
               Dict.get [("a", Atom (AInt 1));
                         ("b", PyList [Atom (AInt 2); Atom (AInt 3);
                                       Atom (AStr "4")]);
                         ("c", Atom (AStr "5"))]%string key = Some v)
            ["a"; "b"; "c"]%string values /\
    ["A"; "1"; "2,3,4"; "5"]%string
    = "A"%string :: flat_map (fun v : @value unit =>
                                match v with
                                | Atom ANone => []
                                | Atom _ => [str no_float no_container v]
                                | PyList l => [joined no_float no_container l]
                                | PyDict _ => []
                                end) values /\
    List.length ["A"; "1"; "2,3,4"; "5"]%string
    = (1 + List.length (filter writable values))%nat.
Proof.
  destruct (row_cells no_float no_container
              [("a", Atom (AInt 1));
               ("b", PyList [Atom (AInt 2); Atom (AInt 3); Atom (AStr "4")]);
               ("c", Atom (AStr "5"))]%string
              ["a"; "b"; "c"]%string "A" ["A"; "1"; "2,3,4"; "5"]%string
              eq_refl) as (H1 & H2 & _ & _ & H5).
  exact (conj H1 (conj H2 H5)).
Defined.

Lemma make_tsv_rows_witness :
  exists body rest,
    [["query"; "a"; "b"; "c"]; ["A"; "1"; "2,3,4"; "5"];
     ["B"; "6,7"; "8"; "9"]]%string
    = ("query"%string :: ["a"; "b"; "c"]%string) :: body /\
    sorted (Dict.keys TEST_ANNOTATIONS) = map (hd EmptyString) body ++ rest /\
    (@None exn = None -> rest = []) /\
    StronglySorted string_le (map (hd EmptyString) body) /\
    (@None exn = None ->
     Permutation (map (hd EmptyString) body) (Dict.keys TEST_ANNOTATIONS)).
Proof.
  exact (make_tsv_rows no_float no_container TEST_ANNOTATIONS
                       ["a"; "b"; "c"]%string _ None eq_refl).
Defined.

(** ** The tests of the repository *)

Example test_find_my_keys :
  map (fun key => find_my_keys key (PyDict TEST_DICT))
      ["A"; "B"; "C"; "D"; "X"]%string
  = [[Atom (AInt 1); Atom (AInt 2); Atom (AInt 3)]; [Atom (AInt 4)];
     [Atom (AInt 5); Atom (AInt 6)]; [Atom (AStr "7")]; []].
Proof. reflexivity. Qed.

Example test_transform_ensembl_annotations :
  transform_ensembl_annotations TEST_DICT ["A"; "B"]%string
  = [("A", Atom (AInt 1)); ("B", PyList [Atom (AInt 4)])]%string /\
  transform_ensembl_annotations TEST_DICT ["B"; "C"]%string
  = [("B", PyList [Atom (AInt 4)]);
     ("C", PyList [Atom (AInt 5); Atom (AInt 6)])]%string /\
  transform_ensembl_annotations TEST_DICT ["A"; "D"; "X"]%string
  = [("A", Atom (AInt 1)); ("D", PyList [Atom (AStr "7")]); ("X", NA)]%string /\
  transform_ensembl_annotations (@nil (string * @value unit))
                                ["A"; "D"; "X"]%string
  = [("A", NA); ("D", NA); ("X", NA)]%string.
Proof. repeat split; reflexivity. Qed.

Example test_make_transformed_annotations_tsv :
  make_transformed_annotations_tsv no_float no_container TEST_ANNOTATIONS
                                   ["a"; "b"; "c"]%string
  = ([["query"; "a"; "b"; "c"]; ["A"; "1"; "2,3,4"; "5"];
      ["B"; "6,7"; "8"; "9"]]%string, None).
Proof. vm_compute. reflexivity. Qed.

(** * Concatenation of CIGAR strings *)

Lemma entries_from_app ops1 ops2 : forall t,
  entries_from t (ops1 ++ ops2) =
  entries_from t ops1 ++ entries_from (t + spec_length ops1) ops2.
Proof.
  induction ops1 as [|[size code] ops1 IH]; intros t.
  - cbn. now rewrite Z.add_0_r.
  - cbn [app entries_from spec_length].
    destruct code as [[] [] [] [] [] [] [] []]; eval_codes;
      rewrite ?IH, ?Z.add_assoc; reflexivity.
Qed.

Lemma entries_from_shift ops : forall t u,
  entries_from (t + u) ops =
  map (fun e => (fst e + t, snd e)) (entries_from u ops).
Proof.
  induction ops as [|[size code] ops IH]; intros t u; [reflexivity|].
  cbn [entries_from].
  destruct code as [[] [] [] [] [] [] [] []]; eval_codes; cbn [map fst snd];
    rewrite <- ?IH, <- ?Z.add_assoc;
    try reflexivity; (f_equal; f_equal; lia).
Qed.

(** X16.  Parsing, measuring and mapping go through the concatenation of
    two CIGAR strings when the first does not end in a digit: the
    operators are those of the first followed by those of the second, the
    length is the sum of the lengths, and the index map is the map of the
    first followed by the map of the second with its anchors moved by the
    length of the first. *)
Theorem cigar_concatenation (a b : string) :
  closed_run (list_ascii_of_string a) = true ->
  cigar_to_operators (a ++ b) = cigar_to_operators a ++ cigar_to_operators b /\
  get_length (a ++ b) = get_length a + get_length b /\
  make_index_map (a ++ b) =
  make_index_map a ++
  map (fun e => (fst e + get_length a, snd e)) (make_index_map b).
Proof.
  intros Ha.
  assert (Hops : cigar_to_operators (a ++ b)
                 = cigar_to_operators a ++ cigar_to_operators b).
  { unfold cigar_to_operators. rewrite list_ascii_of_string_app.
    now apply operators_app_closed. }
  split; [assumption|]. split.
  - now rewrite !get_length_sum, Hops, spec_length_app.
  - rewrite !make_index_map_entries, Hops, entries_from_app.
    f_equal. rewrite <- get_length_sum, Z.add_0_l.
    rewrite <- (Z.add_0_r (get_length a)) at 1.
    apply entries_from_shift.
Qed.

Lemma cigar_concatenation_witness :
  make_index_map ("8M7D6M" ++ "2I2M11D7M") =
  make_index_map "8M7D6M" ++
  map (fun e => (fst e + get_length "8M7D6M", snd e))
      (make_index_map "2I2M11D7M").
Proof.
  exact (proj2 (proj2 (cigar_concatenation "8M7D6M" "2I2M11D7M" eq_refl))).
Defined.

(** X17.  Every operator that [cigar_to_operators] returns has one of the
    nine codes and a size that is not negative, whatever the string. *)
Theorem parsed_operators_valid (cigar : string) :
  Forall (fun o => 0 <= fst o /\ In (snd o) operator_codes)
         (cigar_to_operators cigar).
Proof.
  eapply Forall_impl; [|apply operators_valid].
  intros [size code] [Hs Hc]. split; [assumption|].
  cbn [snd] in *. unfold is_op, Re.one_of in Hc.
  apply existsb_exists in Hc. destruct Hc as (c & Hin & Hc).
  apply Ascii.eqb_eq in Hc. now subst.
Qed.
